(** * cpp-tree-sitter: a shallow embedding of [cpp-tree-sitter.hpp]

    The header wraps the C interface of an external parsing engine in the
    classes [language], [node], [tree], [parser] and [cursor] of namespace
    [ts].  Each class is embedded below as a module holding a record with the
    class' data member [impl] and one definition per member function.  The
    engine itself is not part of the repository; the functions [ts_*] it
    exports are modelled from the specification of the external interface. *)

From Stdlib Require Import ZArith List Ascii String Lia.
From stdpp Require Import base tactics option numbers list list_numbers gmap strings.

Local Open Scope Z_scope.

(** ** Outcomes of C++ expressions

    A call either returns a value, leaves by an exception, or has no defined
    behaviour (a violated library precondition, a null or dangling pointer
    handed to the engine). *)

Inductive exception := out_of_range.

Inductive outcome (A : Type) :=
| Ret (a : A)
| Throw (e : exception)
| Undefined.
Arguments Ret {A} a.
Arguments Throw {A} e.
Arguments Undefined {A}.

#[global] Instance outcome_ret : MRet outcome := fun A a => Ret a.
#[global] Instance outcome_bind : MBind outcome := fun A B f m =>
  match m with
  | Ret a => f a
  | Throw e => Throw e
  | Undefined => Undefined
  end.
#[global] Instance outcome_fmap : FMap outcome := fun A B f m =>
  match m with
  | Ret a => Ret (f a)
  | Throw e => Throw e
  | Undefined => Undefined
  end.

(** ** Fixed-width integers *)

(** [static_cast<uint32_t>] and arithmetic on [uint32_t] keep the low 32 bits. *)
Definition to_uint32 (z : Z) : Z := z mod 2 ^ 32.

(** [size_t] on the LP64 targets of the library. *)
Definition size_t_max : Z := 2 ^ 64 - 1.

(** ** [std::string_view]

    A view is a pointer into a character array together with a length.  The
    array is kept as its extent and a function giving the character at each
    index, so that arrays of any size can be written down. *)

Record char_array := { arr_size : Z; arr_at : Z -> ascii }.

Record pointer := { ptr_obj : char_array; ptr_off : Z }.

Definition ptr_add (p : pointer) (d : Z) : pointer :=
  {| ptr_obj := ptr_obj p; ptr_off := ptr_off p + d |}.

(** The [n] characters starting at [p] all lie inside the array of [p]. *)
Definition ptr_in_bounds (p : pointer) (n : Z) : Prop :=
  0 <= ptr_off p /\ 0 <= n /\ ptr_off p + n <= arr_size (ptr_obj p).

(** What a reader of [n] characters from [p] sees. *)
Definition read_chars (p : pointer) (n : Z) : list ascii :=
  (fun i => arr_at (ptr_obj p) (ptr_off p + i)) <$> seqZ 0 n.

Record string_view := { sv_data : pointer; sv_size : Z }.

Definition sv_valid (s : string_view) : Prop :=
  ptr_in_bounds (sv_data s) (sv_size s) /\ sv_size s <= size_t_max.

Definition sv_chars (s : string_view) : list ascii :=
  read_chars (sv_data s) (sv_size s).

(** [front()]: a reference to the first character; the reference is kept as
    the address it denotes.  Calling it on an empty view is undefined. *)
Definition front (s : string_view) : outcome pointer :=
  if decide (sv_size s = 0) then Undefined else Ret (sv_data s).

(** [substr(pos, count)]: throws [std::out_of_range] when [pos > size()],
    otherwise the view of [min(count, size() - pos)] characters from [pos]. *)
Definition substr (s : string_view) (pos count : Z) : outcome string_view :=
  if decide (sv_size s < pos) then Throw out_of_range
  else Ret {| sv_data := ptr_add (sv_data s) pos;
              sv_size := Z.min count (sv_size s - pos) |}.

(** The array of a NUL-terminated string and the view of its characters. *)
Definition array_of_string (s : string) : char_array :=
  {| arr_size := Z.of_nat (String.length s) + 1;
     arr_at := fun i => nth (Z.to_nat i) (list_ascii_of_string s) zero |}.

Definition c_str (s : string) : pointer :=
  {| ptr_obj := array_of_string s; ptr_off := 0 |}.

Definition sv_of_string (s : string) : string_view :=
  {| sv_data := c_str s; sv_size := Z.of_nat (String.length s) |}.

(** The converting constructor of [std::string_view] from a C string: the
    length is found by scanning for the terminator, which is undefined for a
    null pointer.  A non-null C string returned by the engine is kept as the
    string it points to, a null one as [None]. *)
Definition string_view_of_c_str (p : option string) : outcome string_view :=
  match p with
  | None => Undefined
  | Some s => Ret (sv_of_string s)
  end.

(** The pair [&s.front(), static_cast<uint32_t>(s.size())] that
    [get_symbol_for_name], [get_child_by_field_name] and [parse_string] hand
    to the engine. *)
Definition first_char_and_length (s : string_view) : outcome (pointer * Z) :=
  p ← front s; Ret (p, to_uint32 (sv_size s)).

(** ** Aliases and helper classes of the header *)

Record extent (T : Type) := { start : T; end_ : T }.
Arguments start {T} _.
Arguments end_ {T} _.

Record TSPoint := { row : Z; column : Z }.
Definition point := TSPoint.
Definition symbol := Z.
Definition version := Z.
Definition node_id := Z.

(** ** The parsing engine: data

    The header includes [tree_sitter/api.h] and calls the engine through it.
    None of the engine is in the repository, so its data and functions are
    taken from the description of the external interface. *)

(** Modelled from the spec: the engine's storage for one position of a parsed
    tree (absent from the repository).  It carries the attributes the spec
    lists for a node: symbol code, the flags named, missing, extra and
    syntax-error, byte and point ranges, the field (role) the grammar assigns
    to this position under its parent, and the children in order. *)
#[warnings="-register-all"]
Inductive Subtree := MkSubtree {
  st_symbol : symbol;
  st_named : bool;
  st_missing : bool;
  st_extra : bool;
  st_error : bool;
  st_start_byte : Z;
  st_end_byte : Z;
  st_start_point : TSPoint;
  st_end_point : TSPoint;
  st_field : option string;
  st_children : list Subtree
}.

(** Modelled from the spec: the grammar descriptor [TSLanguage] (absent from
    the repository): the symbol table (name and named flag per symbol code),
    the version, and the grammar's parsing algorithm, which the spec leaves
    opaque. *)
Record TSLanguage := {
  lang_symbols : list (string * bool);
  lang_version : version;
  lang_parse : list ascii -> Subtree
}.

(** Modelled from the spec: the storage of one parse result [TSTree] (absent
    from the repository): its top-level position and its grammar. *)
Record TSTree := { tree_root : Subtree; tree_language : TSLanguage }.

(** Modelled from the spec: the engine's node value [TSNode] (absent from the
    repository), a struct of scalars naming a tree and a position in it.  The
    position [id] is the list of child indices leading to it from the root;
    the null node has both members null. *)
Record TSNode := { ts_tree : option TSTree; ts_id : option (list nat) }.

(** Modelled from the spec: the engine's null node (absent from the
    repository), the result of a navigation that finds no such relative. *)
Definition ts_node_null : TSNode := {| ts_tree := None; ts_id := None |}.

(** Modelled from the spec: how the engine resolves a position (absent from
    the repository): the storage found by following child indices. *)
Fixpoint subtree_at (s : Subtree) (path : list nat) : option Subtree :=
  match path with
  | [] => Some s
  | k :: rest => c ← st_children s !! k; subtree_at c rest
  end.

(** Modelled from the spec: the storage a node value designates, if any
    (engine-internal, absent from the repository). *)
Definition node_subtree (n : TSNode) : option Subtree :=
  t ← ts_tree n; p ← ts_id n; subtree_at (tree_root t) p.

(** Modelled from the spec: a node value that designates a position of its
    tree, as every node the engine hands out does (the engine's notion of a
    node belonging to a tree, absent from the repository). *)
Definition node_valid (n : TSNode) : Prop := is_Some (node_subtree n).

(** Modelled from the spec: the engine's indexing of children by a
    [uint32_t] (absent from the repository). *)
Definition nth_child (cs : list Subtree) (i : Z) : option Subtree :=
  if decide (0 <= i) then cs !! Z.to_nat i else None.

(** Modelled from the spec: the error flag of the engine (absent from the
    repository): a subtree has an error when it or a descendant is a syntax
    error or a missing node. *)
Fixpoint subtree_has_error (s : Subtree) : bool :=
  match s with
  | MkSubtree _ _ missing _ err _ _ _ _ _ cs =>
      err || missing || existsb subtree_has_error cs
  end.

(** Modelled from the spec: the engine's view of the named children (absent
    from the repository): the indices, among all children, of those whose
    named flag is set. *)
Definition named_positions (cs : list Subtree) : list nat :=
  filter (fun k => from_option st_named false (cs !! k) = true) (seq 0 (length cs)).

(** ** The parsing engine: queries on nodes *)

(** Modelled from the spec: [ts_node_is_null] (engine function, absent). *)
Definition ts_node_is_null (n : TSNode) : bool :=
  bool_decide (ts_id n = None).

(** Modelled from the spec: [ts_node_is_named] (engine function, absent). *)
Definition ts_node_is_named (n : TSNode) : bool :=
  from_option st_named false (node_subtree n).

(** Modelled from the spec: [ts_node_is_missing] (engine function, absent). *)
Definition ts_node_is_missing (n : TSNode) : bool :=
  from_option st_missing false (node_subtree n).

(** Modelled from the spec: [ts_node_is_extra] (engine function, absent). *)
Definition ts_node_is_extra (n : TSNode) : bool :=
  from_option st_extra false (node_subtree n).

(** Modelled from the spec: [ts_node_has_error] (engine function, absent):
    true if this node or any descendant is a syntax error or a missing node. *)
Definition ts_node_has_error (n : TSNode) : bool :=
  from_option subtree_has_error false (node_subtree n).

(** Modelled from the spec: [ts_node_child_count] (engine function, absent):
    the number of all children, anonymous ones included. *)
Definition ts_node_child_count (n : TSNode) : Z :=
  from_option (fun s => Z.of_nat (length (st_children s))) 0 (node_subtree n).

(** Modelled from the spec: [ts_node_child] (engine function, absent): the
    child at an index over all children, the null node when there is none. *)
Definition ts_node_child (n : TSNode) (i : Z) : TSNode :=
  match node_subtree n, ts_id n with
  | Some s, Some p =>
      match nth_child (st_children s) i with
      | Some _ => {| ts_tree := ts_tree n; ts_id := Some (p ++ [Z.to_nat i]) |}
      | None => ts_node_null
      end
  | _, _ => ts_node_null
  end.

(** Modelled from the spec: [ts_node_parent] (engine function, absent): the
    position one step towards the root, the null node at the root. *)
Definition ts_node_parent (n : TSNode) : TSNode :=
  match ts_id n with
  | Some (k :: rest) =>
      {| ts_tree := ts_tree n; ts_id := Some (removelast (k :: rest)) |}
  | _ => ts_node_null
  end.

(** Modelled from the spec: [ts_node_next_sibling] (engine function, absent):
    the next child of the same parent, the null node after the last one. *)
Definition ts_node_next_sibling (n : TSNode) : TSNode :=
  match ts_id n ≫= last with
  | Some k => ts_node_child (ts_node_parent n) (Z.of_nat k + 1)
  | None => ts_node_null
  end.

(** Modelled from the spec: [ts_node_prev_sibling] (engine function, absent):
    the previous child of the same parent, the null node before the first. *)
Definition ts_node_prev_sibling (n : TSNode) : TSNode :=
  match ts_id n ≫= last with
  | Some k => ts_node_child (ts_node_parent n) (Z.of_nat k - 1)
  | None => ts_node_null
  end.

(** Modelled from the spec: [ts_node_named_child_count] (engine function,
    absent): the number of children that are named. *)
Definition ts_node_named_child_count (n : TSNode) : Z :=
  from_option (fun s => Z.of_nat (length (named_positions (st_children s)))) 0
              (node_subtree n).

(** Modelled from the spec: [ts_node_named_child] (engine function, absent):
    the child at an index over the named children only. *)
Definition ts_node_named_child (n : TSNode) (i : Z) : TSNode :=
  match node_subtree n with
  | Some s =>
      if decide (0 <= i) then
        match named_positions (st_children s) !! Z.to_nat i with
        | Some k => ts_node_child n (Z.of_nat k)
        | None => ts_node_null
        end
      else ts_node_null
  | None => ts_node_null
  end.

(** Modelled from the spec: [ts_node_field_name_for_child] (engine function,
    absent): the role name the grammar assigns to the [i]-th child as a C
    string, absent (a null pointer) if the child has no assigned field. *)
Definition ts_node_field_name_for_child (n : TSNode) (i : Z) : option string :=
  s ← node_subtree n; c ← nth_child (st_children s) i; st_field c.

(** Modelled from the spec: [ts_node_child_by_field_name] (engine function,
    absent): the first child carrying the field whose name is the [len]
    characters at [name]; the null node if none. *)
Definition ts_node_child_by_field_name (n : TSNode) (name : pointer) (len : Z)
  : TSNode :=
  match node_subtree n with
  | Some s =>
      match list_find (fun c => list_ascii_of_string <$> st_field c
                                = Some (read_chars name len)) (st_children s) with
      | Some (k, _) => ts_node_child n (Z.of_nat k)
      | None => ts_node_null
      end
  | None => ts_node_null
  end.

(** Modelled from the spec: the member [id] of [TSNode] seen as a number; the
    header reinterprets the engine's position pointer as an integer.  Distinct
    positions of a tree have distinct numbers, the null position is 0. *)
Definition ts_node_id_bits (n : TSNode) : node_id :=
  match ts_id n with
  | Some p => Z.pos (encode p)
  | None => 0
  end.

(** Modelled from the spec: [ts_node_symbol] (engine function, absent). *)
Definition ts_node_symbol (n : TSNode) : symbol :=
  from_option st_symbol 0 (node_subtree n).

(** Modelled from the spec: [ts_node_start_byte] (engine function, absent):
    start of the byte range, a [uint32_t]. *)
Definition ts_node_start_byte (n : TSNode) : Z :=
  to_uint32 (from_option st_start_byte 0 (node_subtree n)).

(** Modelled from the spec: [ts_node_end_byte] (engine function, absent): end
    (exclusive) of the byte range, a [uint32_t]. *)
Definition ts_node_end_byte (n : TSNode) : Z :=
  to_uint32 (from_option st_end_byte 0 (node_subtree n)).

(** Modelled from the spec: the point the engine reports for the null node. *)
Definition point_zero : TSPoint := {| row := 0; column := 0 |}.

(** Modelled from the spec: [ts_node_start_point] (engine function, absent). *)
Definition ts_node_start_point (n : TSNode) : TSPoint :=
  from_option st_start_point point_zero (node_subtree n).

(** Modelled from the spec: [ts_node_end_point] (engine function, absent). *)
Definition ts_node_end_point (n : TSNode) : TSPoint :=
  from_option st_end_point point_zero (node_subtree n).

(** ** The parsing engine: queries on grammars *)

(** Modelled from the spec: [ts_language_symbol_count] (engine function,
    absent). *)
Definition ts_language_symbol_count (l : TSLanguage) : Z :=
  Z.of_nat (length (lang_symbols l)).

(** Modelled from the spec: [ts_language_symbol_name] (engine function,
    absent): the name of a symbol code, absent when the code is out of range. *)
Definition ts_language_symbol_name (l : TSLanguage) (s : symbol) : option string :=
  if decide (0 <= s) then fst <$> lang_symbols l !! Z.to_nat s else None.

(** Modelled from the spec: [ts_language_symbol_for_name] (engine function,
    absent): reverse lookup of the [len] characters at [name]; [is_named]
    tells named symbols from anonymous ones of the same text.  The spec does
    not say what an unknown name gives; code 0 is used. *)
Definition ts_language_symbol_for_name (l : TSLanguage) (name : pointer)
    (len : Z) (is_named : bool) : symbol :=
  match list_find (fun e => list_ascii_of_string (fst e) = read_chars name len
                            /\ snd e = is_named) (lang_symbols l) with
  | Some (k, _) => Z.of_nat k
  | None => 0
  end.

(** Modelled from the spec: [ts_language_version] (engine function, absent). *)
Definition ts_language_version (l : TSLanguage) : version := lang_version l.

(** Modelled from the spec: [ts_node_type] (engine function, absent): the
    name of the node's symbol in the grammar of its tree. *)
Definition ts_node_type (n : TSNode) : option string :=
  t ← ts_tree n; ts_language_symbol_name (tree_language t) (ts_node_symbol n).

(** ** [struct language] *)

Module language.

(** [TSLanguage const *impl]: borrowed, never freed by the wrapper; kept as
    the descriptor it points to. *)
Record t := mk { impl : TSLanguage }.

Definition get_num_symbols (l : t) : Z :=
  ts_language_symbol_count (impl l).

Definition get_symbol_name (l : t) (s : symbol) : outcome string_view :=
  string_view_of_c_str (ts_language_symbol_name (impl l) s).

Definition get_symbol_for_name (l : t) (name : string_view) (isNamed : bool)
  : outcome symbol :=
  '(p, len) ← first_char_and_length name;
  Ret (ts_language_symbol_for_name (impl l) p len isNamed).

Definition get_version (l : t) : version :=
  ts_language_version (impl l).

End language.

(** ** [struct node] *)

Module node.

Record t := mk { impl : TSNode }.

(** Flag checks on nodes *)

Definition is_null (n : t) : bool := ts_node_is_null (impl n).
Definition is_named (n : t) : bool := ts_node_is_named (impl n).
Definition is_missing (n : t) : bool := ts_node_is_missing (impl n).
Definition is_extra (n : t) : bool := ts_node_is_extra (impl n).
Definition has_error (n : t) : bool := ts_node_has_error (impl n).

(** Navigation *)

Definition get_parent (n : t) : t := mk (ts_node_parent (impl n)).
Definition get_previous_sibling (n : t) : t := mk (ts_node_prev_sibling (impl n)).
Definition get_next_sibling (n : t) : t := mk (ts_node_next_sibling (impl n)).
Definition get_num_children (n : t) : Z := ts_node_child_count (impl n).
Definition get_child (n : t) (position : Z) : t :=
  mk (ts_node_child (impl n) position).

(** Named children *)

Definition get_num_named_children (n : t) : Z :=
  ts_node_named_child_count (impl n).
Definition get_named_child (n : t) (position : Z) : t :=
  mk (ts_node_named_child (impl n) position).

(** Named fields *)

Definition get_field_name_for_child (n : t) (child_position : Z)
  : outcome string_view :=
  string_view_of_c_str (ts_node_field_name_for_child (impl n) child_position).

Definition get_child_by_field_name (n : t) (name : string_view) : outcome t :=
  '(p, len) ← first_char_and_length name;
  Ret (mk (ts_node_child_by_field_name (impl n) p len)).

(** Node attributes *)

Definition get_id (n : t) : node_id := ts_node_id_bits (impl n).
Definition get_symbol (n : t) : symbol := ts_node_symbol (impl n).
Definition get_type (n : t) : outcome string_view :=
  string_view_of_c_str (ts_node_type (impl n)).

Definition get_byte_range (n : t) : extent Z :=
  {| start := ts_node_start_byte (impl n); end_ := ts_node_end_byte (impl n) |}.

Definition get_point_range (n : t) : extent point :=
  {| start := ts_node_start_point (impl n); end_ := ts_node_end_point (impl n) |}.

Definition get_source_range (n : t) (source : string_view) : outcome string_view :=
  let extents := get_byte_range n in
  substr source (start extents) (to_uint32 (end_ extents - start extents)).

End node.

(** ** The parsing engine: owned storage

    Trees, parsers and cursors live in storage the engine allocates and the
    wrappers release.  The engine state is threaded through every call that
    reads or changes that storage. *)

(** Modelled from the spec: the engine-owned storage of one parse result
    (absent from the repository) together with the number of times it has
    been released; the storage is live while that number is 0. *)
Record tree_cell := { cell_tree : TSTree; cell_deletes : nat }.

(** Modelled from the spec: the engine's heap (absent from the repository):
    tree storage by address, parser state by address (the grammar a parser is
    bound to, if any) and cursor state by address (the stack of positions from
    the current one down to the position the cursor was seeded with). *)
Record engine := {
  eng_trees : gmap nat tree_cell;
  eng_parsers : gmap nat (option TSLanguage);
  eng_cursors : gmap nat (list TSNode)
}.

(** Modelled from the spec: the engine's heap before any allocation. *)
Definition engine_empty : engine :=
  {| eng_trees := ∅; eng_parsers := ∅; eng_cursors := ∅ |}.

(** Modelled from the spec: an opaque handle to engine storage ([TSTree*],
    [TSParser*]; absent from the repository): null or an address. *)
Definition handle := option nat.

(** Modelled from the spec: updates of one part of the engine's heap. *)
Definition set_trees (f : gmap nat tree_cell -> gmap nat tree_cell) (E : engine) :=
  {| eng_trees := f (eng_trees E); eng_parsers := eng_parsers E;
     eng_cursors := eng_cursors E |}.
Definition set_parsers (f : gmap nat (option TSLanguage) -> gmap nat (option TSLanguage))
    (E : engine) :=
  {| eng_trees := eng_trees E; eng_parsers := f (eng_parsers E);
     eng_cursors := eng_cursors E |}.
Definition set_cursors (f : gmap nat (list TSNode) -> gmap nat (list TSNode))
    (E : engine) :=
  {| eng_trees := eng_trees E; eng_parsers := eng_parsers E;
     eng_cursors := f (eng_cursors E) |}.

(** Modelled from the spec: [ts_parser_new] (engine function, absent). *)
Definition ts_parser_new (E : engine) : handle * engine :=
  let a := fresh (dom (eng_parsers E)) in
  (Some a, set_parsers (insert a None) E).

(** Modelled from the spec: [ts_parser_set_language] (engine function,
    absent): binds the parser to a grammar. *)
Definition ts_parser_set_language (p : handle) (l : TSLanguage) (E : engine)
  : outcome engine :=
  match p with
  | Some a =>
      match eng_parsers E !! a with
      | Some _ => Ret (set_parsers (insert a (Some l)) E)
      | None => Undefined
      end
  | None => Undefined
  end.

(** Modelled from the spec: [ts_parser_delete] (engine function, absent). *)
Definition ts_parser_delete (p : handle) (E : engine) : outcome engine :=
  match p with
  | Some a =>
      match eng_parsers E !! a with
      | Some _ => Ret (set_parsers (delete a) E)
      | None => Undefined
      end
  | None => Ret E
  end.

(** Modelled from the spec: [ts_parser_parse_string] (engine function,
    absent): parses the [len] characters at [str] with the grammar the parser
    is bound to and returns a handle to newly allocated tree storage; it
    never fails at the call boundary.  The spec gives no meaning to a parser
    without a grammar. *)
Definition ts_parser_parse_string (p : handle) (old_tree : handle)
    (str : pointer) (len : Z) (E : engine) : outcome (handle * engine) :=
  match p ≫= (fun a => eng_parsers E !! a) with
  | Some (Some l) =>
      let a := fresh (dom (eng_trees E)) in
      let t := {| tree_root := lang_parse l (read_chars str len);
                  tree_language := l |} in
      Ret (Some a, set_trees (insert a {| cell_tree := t; cell_deletes := 0 |}) E)
  | _ => Undefined
  end.

(** Modelled from the spec: [ts_tree_delete] (engine function, absent):
    releases the storage behind a tree handle.  Each call on an address is
    counted, so that a second release of the same storage shows. *)
Definition ts_tree_delete (p : handle) (E : engine) : outcome engine :=
  match p with
  | Some a =>
      match eng_trees E !! a with
      | Some c =>
          Ret (set_trees (insert a {| cell_tree := cell_tree c;
                                      cell_deletes := S (cell_deletes c) |}) E)
      | None => Undefined
      end
  | None => Ret E
  end.

(** Modelled from the spec: how the engine reads a tree handle (absent from
    the repository): the storage behind it, which must not have been
    released. *)
Definition live_tree (p : handle) (E : engine) : outcome TSTree :=
  match p ≫= (fun a => eng_trees E !! a) with
  | Some c => if decide (cell_deletes c = 0%nat) then Ret (cell_tree c) else Undefined
  | None => Undefined
  end.

(** Modelled from the spec: [ts_tree_root_node] (engine function, absent):
    the top-level node of a parse result. *)
Definition ts_tree_root_node (p : handle) (E : engine) : outcome TSNode :=
  t ← live_tree p E; Ret {| ts_tree := Some t; ts_id := Some [] |}.

(** Modelled from the spec: [ts_tree_language] (engine function, absent). *)
Definition ts_tree_language (p : handle) (E : engine) : outcome TSLanguage :=
  t ← live_tree p E; Ret (tree_language t).

(** Modelled from the spec: the engine's cursor value [TSTreeCursor] (absent
    from the repository); its member [id] addresses the engine-side stack of
    positions. *)
Record TSTreeCursor := { tc_id : nat }.

(** Modelled from the spec: the position stack a cursor value addresses
    (engine-internal, absent from the repository). *)
Definition cursor_stack (c : TSTreeCursor) (E : engine) : option (list TSNode) :=
  eng_cursors E !! tc_id c.

(** Modelled from the spec: [ts_tree_cursor_new] (engine function, absent):
    a cursor positioned at the seeding node. *)
Definition ts_tree_cursor_new (n : TSNode) (E : engine) : TSTreeCursor * engine :=
  let a := fresh (dom (eng_cursors E)) in
  ({| tc_id := a |}, set_cursors (insert a [n]) E).

(** Modelled from the spec: [ts_tree_cursor_copy] (engine function, absent):
    a deep copy, with a position stack of its own. *)
Definition ts_tree_cursor_copy (c : TSTreeCursor) (E : engine)
  : outcome (TSTreeCursor * engine) :=
  match cursor_stack c E with
  | Some st =>
      let a := fresh (dom (eng_cursors E)) in
      Ret ({| tc_id := a |}, set_cursors (insert a st) E)
  | None => Undefined
  end.

(** Modelled from the spec: [ts_tree_cursor_delete] (engine function,
    absent): releases the engine-side cursor state. *)
Definition ts_tree_cursor_delete (c : TSTreeCursor) (E : engine) : outcome engine :=
  match cursor_stack c E with
  | Some _ => Ret (set_cursors (delete (tc_id c)) E)
  | None => Undefined
  end.

(** Modelled from the spec: [ts_tree_cursor_reset] (engine function, absent):
    re-seeds the cursor at a node and discards the earlier positions. *)
Definition ts_tree_cursor_reset (c : TSTreeCursor) (n : TSNode) (E : engine)
  : outcome engine :=
  match cursor_stack c E with
  | Some _ => Ret (set_cursors (insert (tc_id c) [n]) E)
  | None => Undefined
  end.

(** Modelled from the spec: [ts_tree_cursor_current_node] (engine function,
    absent). *)
Definition ts_tree_cursor_current_node (c : TSTreeCursor) (E : engine)
  : outcome TSNode :=
  match cursor_stack c E with
  | Some (cur :: _) => Ret cur
  | _ => Undefined
  end.

(** Modelled from the spec: [ts_tree_cursor_goto_parent] (engine function,
    absent): moves to the parent of the current position; false and no move
    at the position the cursor was seeded or reset to. *)
Definition ts_tree_cursor_goto_parent (c : TSTreeCursor) (E : engine)
  : outcome (bool * engine) :=
  match cursor_stack c E with
  | Some (cur :: parent :: rest) =>
      Ret (true, set_cursors (insert (tc_id c) (parent :: rest)) E)
  | Some [cur] => Ret (false, E)
  | _ => Undefined
  end.

(** Modelled from the spec: [ts_tree_cursor_goto_first_child] (engine
    function, absent): descends to the first child, named or not; false if
    the current position has no children. *)
Definition ts_tree_cursor_goto_first_child (c : TSTreeCursor) (E : engine)
  : outcome (bool * engine) :=
  match cursor_stack c E with
  | Some (cur :: rest) =>
      let child := ts_node_child cur 0 in
      if ts_node_is_null child then Ret (false, E)
      else Ret (true, set_cursors (insert (tc_id c) (child :: cur :: rest)) E)
  | _ => Undefined
  end.

(** Modelled from the spec: [ts_tree_cursor_goto_next_sibling] (engine
    function, absent): moves to the next sibling at the current depth; false
    if the current position is the last sibling. *)
Definition ts_tree_cursor_goto_next_sibling (c : TSTreeCursor) (E : engine)
  : outcome (bool * engine) :=
  match cursor_stack c E with
  | Some (cur :: rest) =>
      let sibling := ts_node_next_sibling cur in
      if ts_node_is_null sibling then Ret (false, E)
      else Ret (true, set_cursors (insert (tc_id c) (sibling :: rest)) E)
  | _ => Undefined
  end.

(** ** [std::unique_ptr] with a function-pointer deleter

    The owning members of [tree] and [parser].  A unique pointer cannot be
    copied; it can be moved, which leaves the source null; its destructor
    calls the deleter on a non-null pointer only. *)

Module unique_ptr.

Record t := mk { get : handle; get_deleter : handle -> engine -> outcome engine }.

(** [unique_ptr(unique_ptr&& u)]: the new pointer and the moved-from [u]. *)
Definition move_ctor (u : t) : t * t :=
  (mk (get u) (get_deleter u), mk None (get_deleter u)).

(** [release()]: gives up ownership; the old pointer and the new [self]. *)
Definition release (self : t) : handle * t :=
  (get self, mk None (get_deleter self)).

(** [reset(p)]: stores [p], then deletes the pointer held before if it was
    not null. *)
Definition reset (self : t) (p : handle) (E : engine) : outcome (t * engine) :=
  let old := get self in
  let self' := mk p (get_deleter self) in
  match old with
  | Some _ => E' ← get_deleter self old E; Ret (self', E')
  | None => Ret (self', E)
  end.

(** [~unique_ptr()] *)
Definition dtor (self : t) (E : engine) : outcome engine :=
  match get self with
  | Some _ => get_deleter self (get self) E
  | None => Ret E
  end.

End unique_ptr.

(** ** [class tree] *)

Module tree.

Record t := mk { impl : unique_ptr.t }.

(** [tree(TSTree *tree) : impl{tree, ts_tree_delete}] *)
Definition ctor (raw : handle) : t := mk (unique_ptr.mk raw ts_tree_delete).

Definition get_root_node (self : t) (E : engine) : outcome node.t :=
  node.mk <$> ts_tree_root_node (unique_ptr.get (impl self)) E.

Definition get_language (self : t) (E : engine) : outcome language.t :=
  language.mk <$> ts_tree_language (unique_ptr.get (impl self)) E.

Definition has_error (self : t) (E : engine) : outcome bool :=
  r ← get_root_node self E; Ret (node.has_error r).

(** The special members the class gets from its [unique_ptr] member: the
    copy operations are deleted, the move constructor and the destructor
    act member-wise. *)

(** [tree(tree&& other)]: the new tree and the moved-from [other]. *)
Definition move_ctor (other : t) : t * t :=
  let '(u, u') := unique_ptr.move_ctor (impl other) in (mk u, mk u').

(** [~tree()] *)
Definition dtor (self : t) (E : engine) : outcome engine :=
  unique_ptr.dtor (impl self) E.

End tree.

(** ** [class parser] *)

Module parser.

Record t := mk { impl : unique_ptr.t }.

(** [parser(language language)] *)
Definition ctor (l : language.t) (E : engine) : outcome (t * engine) :=
  let '(raw, E1) := ts_parser_new E in
  E2 ← ts_parser_set_language raw (language.impl l) E1;
  Ret (mk (unique_ptr.mk raw ts_parser_delete), E2).

Definition parse_string (self : t) (buffer : string_view) (E : engine)
  : outcome (tree.t * engine) :=
  '(str, len) ← first_char_and_length buffer;
  '(raw, E') ← ts_parser_parse_string (unique_ptr.get (impl self)) None str len E;
  Ret (tree.ctor raw, E').

(** [~parser()] *)
Definition dtor (self : t) (E : engine) : outcome engine :=
  unique_ptr.dtor (impl self) E.

End parser.

(** ** [class cursor] *)

Module cursor.

Record t := mk { impl : TSTreeCursor }.

(** [cursor(TSNode node)] *)
Definition ctor (n : TSNode) (E : engine) : t * engine :=
  let '(c, E') := ts_tree_cursor_new n E in (mk c, E').

(** [cursor(const TSTreeCursor &cursor)] *)
Definition ctor_copy (c : TSTreeCursor) (E : engine) : outcome (t * engine) :=
  '(c', E') ← ts_tree_cursor_copy c E; Ret (mk c', E').

(** [~cursor()] *)
Definition dtor (self : t) (E : engine) : outcome engine :=
  ts_tree_cursor_delete (impl self) E.

Definition reset (self : t) (n : node.t) (E : engine) : outcome engine :=
  ts_tree_cursor_reset (impl self) (node.impl n) E.

Definition copy (self : t) (E : engine) : outcome (t * engine) :=
  ctor_copy (impl self) E.

Definition get_current_node (self : t) (E : engine) : outcome node.t :=
  node.mk <$> ts_tree_cursor_current_node (impl self) E.

(** Navigation *)

Definition goto_parent (self : t) (E : engine) : outcome (bool * engine) :=
  ts_tree_cursor_goto_parent (impl self) E.

Definition goto_next_sibling (self : t) (E : engine) : outcome (bool * engine) :=
  ts_tree_cursor_goto_next_sibling (impl self) E.

Definition goto_first_child (self : t) (E : engine) : outcome (bool * engine) :=
  ts_tree_cursor_goto_first_child (impl self) E.

End cursor.

(** [node::get_cursor], defined in the header after [class cursor]. *)
Definition get_cursor (n : node.t) (E : engine) : cursor.t * engine :=
  cursor.ctor (node.impl n) E.

(** ** Client code that creates, moves and destroys trees

    The lifetime of tree wrappers is followed through straight-line client
    code over named [ts::tree] objects and one parser.  The statements are
    the ones the class admits: a declaration initialised by [parse_string], a
    declaration initialised by moving from another tree, a move assignment,
    and the end of an object's scope.  There is no statement that copies a
    tree, as [tree] has no copy constructor and no copy assignment.  These
    statements use the wrappers only; client code that also takes raw
    handles from the engine and wraps them is [client_stmt] further down. *)

Inductive stmt :=
| DeclParse (x : string) (buffer : string_view)
    (* ts::tree x = the_parser.parse_string(buffer); *)
| DeclMove (y x : string)
    (* ts::tree y{std::move(x)}; *)
| AssignMove (y x : string)
    (* y = std::move(x); *)
| EndScope (x : string).
    (* the scope of x ends: ~tree() runs *)

Record state := {
  vars : gmap string tree.t;
  the_parser : parser.t;
  eng : engine
}.

Definition exec (s : stmt) (σ : state) : option state :=
  match s with
  | DeclParse x buffer =>
      match vars σ !! x, parser.parse_string (the_parser σ) buffer (eng σ) with
      | None, Ret (t, E') =>
          Some {| vars := <[x := t]> (vars σ); the_parser := the_parser σ; eng := E' |}
      | _, _ => None
      end
  | DeclMove y x =>
      match vars σ !! x, vars σ !! y with
      | Some tx, None =>
          let '(ty, tx') := tree.move_ctor tx in
          Some {| vars := <[y := ty]> (<[x := tx']> (vars σ));
                  the_parser := the_parser σ; eng := eng σ |}
      | _, _ => None
      end
  | AssignMove y x =>
      (* unique_ptr's move assignment is reset(u.release()) *)
      tx ← vars σ !! x;
      let '(p, ux) := unique_ptr.release (tree.impl tx) in
      let vars1 := <[x := tree.mk ux]> (vars σ) in
      ty ← vars1 !! y;
      match unique_ptr.reset (tree.impl ty) p (eng σ) with
      | Ret (uy, E') =>
          Some {| vars := <[y := tree.mk uy]> vars1;
                  the_parser := the_parser σ; eng := E' |}
      | _ => None
      end
  | EndScope x =>
      tx ← vars σ !! x;
      match tree.dtor tx (eng σ) with
      | Ret E' =>
          Some {| vars := delete x (vars σ); the_parser := the_parser σ; eng := E' |}
      | _ => None
      end
  end.

Fixpoint run (prog : list stmt) (σ : state) : option state :=
  match prog with
  | [] => Some σ
  | s :: rest => σ' ← exec s σ; run rest σ'
  end.

(** The state in which client code starts: a parser for the grammar, no tree
    object in scope, no tree storage allocated. *)
Definition initial (l : language.t) : option state :=
  match parser.ctor l engine_empty with
  | Ret (p, E) => Some {| vars := ∅; the_parser := p; eng := E |}
  | _ => None
  end.

Definition program (l : language.t) (prog : list stmt) : option state :=
  σ ← initial l; run prog σ.

(** Among the tree objects [V], the one named [x] holds the engine handle [a]. *)
Definition owns_in (V : gmap string tree.t) (x : string) (a : nat) : Prop :=
  exists t, V !! x = Some t /\ unique_ptr.get (tree.impl t) = Some a.

Definition owns (σ : state) (x : string) (a : nat) : Prop := owns_in (vars σ) x a.

(** How often the storage at [a] has been released. *)
Definition releases (σ : state) (a : nat) : option nat :=
  cell_deletes <$> eng_trees (eng σ) !! a.

(** ** A small grammar and tree for examples: [(a (b) (c))] *)

Definition leaf (sym : symbol) (named : bool) (sb eb : Z) (f : option string)
  : Subtree :=
  MkSubtree sym named false false false sb eb
            {| row := 0; column := sb |} {| row := 0; column := eb |} f [].

Definition abc_root : Subtree :=
  MkSubtree 1 true false false false 0 9 {| row := 0; column := 0 |}
            {| row := 0; column := 9 |} None
            [leaf 2 true 1 4 (Some "left"%string); leaf 4 false 4 5 None;
             leaf 3 true 5 8 None].

Definition abc_language : TSLanguage :=
  {| lang_symbols := [("end", false); ("a", true); ("b", true); ("c", true);
                      (",", false)]%string;
     lang_version := 14;
     lang_parse := fun _ => abc_root |}.

Definition abc_tree : TSTree :=
  {| tree_root := abc_root; tree_language := abc_language |}.

Definition abc_node (path : list nat) : node.t :=
  node.mk {| ts_tree := Some abc_tree; ts_id := Some path |}.

(** ** Definitions used to state the properties *)

(** The reading of [get_source_range] that validates nothing: the view of the
    buffer from the start of the node's byte range to its end. *)
Definition source_slice (n : node.t) (source : string_view) : string_view :=
  let r := node.get_byte_range n in
  {| sv_data := ptr_add (sv_data source) (start r); sv_size := end_ r - start r |}.

(** A buffer of 4 GiB, every character of which is an "a". *)
Definition huge_array : char_array :=
  {| arr_size := 2 ^ 32; arr_at := fun _ => "a"%char |}.

Definition huge_view : string_view :=
  {| sv_data := {| ptr_obj := huge_array; ptr_off := 0 |}; sv_size := 2 ^ 32 |}.

(** The navigation calls of a cursor. *)
Inductive navigation := GotoFirstChild | GotoNextSibling | GotoParent.

Definition navigate (s : navigation) (c : cursor.t) (E : engine)
  : outcome (bool * engine) :=
  match s with
  | GotoFirstChild => cursor.goto_first_child c E
  | GotoNextSibling => cursor.goto_next_sibling c E
  | GotoParent => cursor.goto_parent c E
  end.

(** A sequence of navigation calls on one cursor, results discarded. *)
Fixpoint navigate_all (ss : list navigation) (c : cursor.t) (E : engine)
  : outcome engine :=
  match ss with
  | [] => Ret E
  | s :: rest => '(_, E') ← navigate s c E; navigate_all rest c E'
  end.

(** The ownership discipline of tree wrappers, over the tree objects in scope
    and the engine's tree storage: every tree object releases with
    [ts_tree_delete]; no two objects hold the same handle; storage that has
    not been released has an owner, storage without owner has been released
    once; and an owned handle addresses allocated storage. *)
Record ownership_on (V : gmap string tree.t) (Tr : gmap nat tree_cell) : Prop := {
  own_deleter : forall x t, V !! x = Some t ->
      unique_ptr.get_deleter (tree.impl t) = ts_tree_delete;
  own_unique : forall x y a, owns_in V x a -> owns_in V y a -> x = y;
  own_cells : forall a c, Tr !! a = Some c ->
      (cell_deletes c = 0%nat /\ exists x, owns_in V x a) \/
      (cell_deletes c = 1%nat /\ forall x, ~ owns_in V x a);
  own_allocated : forall x a, owns_in V x a -> is_Some (Tr !! a)
}.

Definition ownership (σ : state) : Prop :=
  ownership_on (vars σ) (eng_trees (eng σ)).

(** Client code for the examples: two parses, a move construction, a move
    assignment that overwrites a live tree, and the end of every scope. *)
Definition abc_client : list stmt :=
  [DeclParse "t" (sv_of_string "(bbb,ccc)");
   DeclMove "u" "t";
   DeclParse "v" (sv_of_string "(b,c)");
   AssignMove "u" "v";
   EndScope "v"; EndScope "u"; EndScope "t"]%string.

(** A cursor for the examples: seeded at the root of [(a (b) (c))]. *)
Definition abc_cursor : cursor.t * engine := get_cursor (abc_node []) engine_empty.

(** A sequence of navigation calls on one cursor, with the result of each
    call recorded. *)
Fixpoint navigate_log (ss : list navigation) (c : cursor.t) (E : engine)
  : outcome (list (navigation * bool) * engine) :=
  match ss with
  | [] => Ret ([], E)
  | s :: rest =>
      '(b, E1) ← navigate s c E;
      '(log, E2) ← navigate_log rest c E1;
      Ret ((s, b) :: log, E2)
  end.

(** How many [goto_first_child] calls of a log returned true. *)
Fixpoint descents (log : list (navigation * bool)) : nat :=
  match log with
  | [] => 0
  | (GotoFirstChild, true) :: rest => S (descents rest)
  | _ :: rest => descents rest
  end.

(** How many [goto_parent] calls of a log returned true. *)
Fixpoint ascents (log : list (navigation * bool)) : nat :=
  match log with
  | [] => 0
  | (GotoParent, true) :: rest => S (ascents rest)
  | _ :: rest => ascents rest
  end.

(** The parser of the client code is alive and bound to a grammar. *)
Definition parser_ready (σ : state) : Prop :=
  exists a l, unique_ptr.get (parser.impl (the_parser σ)) = Some a /\
    eng_parsers (eng σ) !! a = Some (Some l).

(** ** Client code that also calls the engine directly

    The header includes the engine's C interface, and the constructor of
    [tree] from a raw [TSTree] pointer is public and implicit.  Client code can therefore obtain
    a raw tree handle from the engine and wrap it, any number of times. *)

Inductive client_stmt :=
| Wrapped (s : stmt)
    (* a statement that uses the wrappers only *)
| RawParse (l : TSLanguage) (buffer : string_view)
    (* TSParser *p = ts_parser_new(); ts_parser_set_language(p, l);
       ts_parser_parse_string(p, nullptr, buffer.data(), buffer.size()); *)
| DeclWrap (x : string) (raw : handle).
    (* ts::tree x{raw}; *)

(** Modelled from the spec: a parse through the engine's own interface, with
    a parser made by [ts_parser_new] and bound by [ts_parser_set_language]
    (engine functions, absent from the repository). *)
Definition raw_parse (l : TSLanguage) (buffer : string_view) (E : engine)
  : outcome (handle * engine) :=
  let '(p, E1) := ts_parser_new E in
  E2 ← ts_parser_set_language p l E1;
  ts_parser_parse_string p None (sv_data buffer) (to_uint32 (sv_size buffer)) E2.

Definition exec_client (c : client_stmt) (σ : state) : option state :=
  match c with
  | Wrapped s => exec s σ
  | RawParse l buffer =>
      match raw_parse l buffer (eng σ) with
      | Ret (_, E') =>
          Some {| vars := vars σ; the_parser := the_parser σ; eng := E' |}
      | _ => None
      end
  | DeclWrap x raw =>
      match vars σ !! x with
      | None =>
          Some {| vars := <[x := tree.ctor raw]> (vars σ);
                  the_parser := the_parser σ; eng := eng σ |}
      | Some _ => None
      end
  end.

Fixpoint run_client (prog : list client_stmt) (σ : state) : option state :=
  match prog with
  | [] => Some σ
  | c :: rest => σ' ← exec_client c σ; run_client rest σ'
  end.

Definition client_program (l : language.t) (prog : list client_stmt)
  : option state :=
  σ ← initial l; run_client prog σ.

(** The client code gets its trees from [parse_string] only: it neither
    calls the engine directly nor wraps a raw handle. *)
Definition uses_wrappers_only (prog : list client_stmt) : bool :=
  forallb (fun c => match c with Wrapped _ => true | _ => false end) prog.

(** The statement [s], run in state [σ], is one that releases the storage at
    [a]: the scope of the tree object holding [a] ends, or that object is
    overwritten by a move assignment from another object. *)
Definition releasing (s : stmt) (σ : state) (a : nat) : Prop :=
  match s with
  | EndScope x => owns σ x a
  | AssignMove y x => y <> x /\ owns σ y a
  | _ => False
  end.

(** Between two states, storage is released only while it is live: a release
    count that changes goes from 0 to 1. *)
Definition releases_only_live (σ σ' : state) : Prop :=
  forall a n, releases σ a = Some n ->
    releases σ' a = Some n \/ (n = 0%nat /\ releases σ' a = Some 1%nat).

(** No storage has been released more than once. *)
Definition released_at_most_once (σ : state) : Prop :=
  forall a n, releases σ a = Some n -> (n <= 1)%nat.

(** Client code for the examples: a raw handle from the engine wrapped in two
    tree objects, both of which go out of scope. *)
Definition raw_client : list client_stmt :=
  [RawParse abc_language (sv_of_string "(b,c)");
   DeclWrap "a" (Some 0%nat);
   DeclWrap "b" (Some 0%nat);
   Wrapped (EndScope "a"); Wrapped (EndScope "b")]%string.

(** Client code for the examples: a move assignment over a live tree, with
    both tree objects still in scope afterwards. *)
Definition overwrite_client : list client_stmt :=
  [Wrapped (DeclParse "t" (sv_of_string "(b,c)"));
   Wrapped (DeclParse "u" (sv_of_string "(bbb,ccc)"));
   Wrapped (AssignMove "t" "u")]%string.

(** * Properties *)

(** ** Trees and nodes *)

Lemma get_root_node_live (t : tree.t) (E : engine) (T : TSTree) :
  live_tree (unique_ptr.get (tree.impl t)) E = Ret T ->
  tree.get_root_node t E = Ret (node.mk {| ts_tree := Some T; ts_id := Some [] |}).
Proof.
  intros H. unfold tree.get_root_node, ts_tree_root_node. rewrite H. reflexivity.
Qed.

(** C3: for every tree, [has_error()] returns the same boolean as
    [get_root_node().has_error()]; where the root cannot be read (a moved-from
    or released tree) neither call has a defined result. *)
Theorem tree_has_error_is_root_has_error (t : tree.t) (E : engine) :
  tree.has_error t E = node.has_error <$> tree.get_root_node t E.
Proof.
  unfold tree.has_error.
  destruct (tree.get_root_node t E) as [r|e|]; reflexivity.
Qed.

(** C8: for every node, [get_num_children()] is at least
    [get_num_named_children()]. *)
Theorem num_children_ge_num_named_children (n : node.t) :
  node.get_num_children n >= node.get_num_named_children n.
Proof.
  unfold node.get_num_children, node.get_num_named_children,
    ts_node_child_count, ts_node_named_child_count.
  destruct (node_subtree (node.impl n)) as [s|]; simpl; [|lia].
  unfold named_positions.
  pose proof (length_filter
    (fun k => from_option st_named false (st_children s !! k) = true)
    (seq 0 (length (st_children s)))) as H.
  rewrite length_seq in H. lia.
Qed.

(** C9 fails on the code: for the root of [(a (b) , (c))], whose child 1 has
    no field, the engine returns a null C string and the conversion of the
    return value to [std::string_view] is undefined; a child with a field
    does give its name. *)
Theorem get_field_name_for_child_without_field :
  ts_node_field_name_for_child (node.impl (abc_node [])) 1 = None /\
  node.get_field_name_for_child (abc_node []) 1 = Undefined /\
  sv_chars <$> node.get_field_name_for_child (abc_node []) 0
    = Ret (list_ascii_of_string "left").
Proof. repeat split; reflexivity. Qed.

(** C2 fails on the code at the empty buffer: [parse_string] takes
    [&buffer.front()], which is undefined for a view of length 0, whatever
    the parser and the engine state. *)
Theorem parse_string_empty_buffer_undefined (p : parser.t) (E : engine) :
  parser.parse_string p (sv_of_string "") E = Undefined.
Proof. reflexivity. Qed.

(** ** Slicing the source buffer *)

Lemma to_uint32_range (z : Z) : 0 <= to_uint32 z < 2 ^ 32.
Proof. unfold to_uint32. apply Z.mod_pos_bound. lia. Qed.

Lemma to_uint32_small (z : Z) : 0 <= z < 2 ^ 32 -> to_uint32 z = z.
Proof. intros H. unfold to_uint32. apply Z.mod_small. exact H. Qed.

Lemma byte_range_start_nonneg (n : node.t) : 0 <= start (node.get_byte_range n).
Proof. simpl. apply to_uint32_range. Qed.

(** The characters seen through a sub-view are those of the view, with [pos]
    dropped in front and at most [count] kept. *)
Lemma read_chars_sub (p : pointer) (size pos count : Z) :
  0 <= pos -> 0 <= count ->
  read_chars (ptr_add p pos) (Z.min count (size - pos))
  = take (Z.to_nat count) (drop (Z.to_nat pos) (read_chars p size)).
Proof.
  intros Hpos Hcount. unfold read_chars. apply list_eq. intros i.
  rewrite !list_lookup_fmap.
  destruct (decide (i < Z.to_nat count)%nat) as [Hi|Hi].
  - rewrite lookup_take_lt by exact Hi.
    rewrite lookup_drop, list_lookup_fmap.
    destruct (decide (pos + Z.of_nat i < size)) as [Hin|Hout].
    + rewrite (lookup_seqZ_lt 0 (Z.min count (size - pos)) i) by lia.
      rewrite (lookup_seqZ_lt 0 size) by lia.
      simpl. f_equal. f_equal. lia.
    + rewrite (lookup_seqZ_ge 0 (Z.min count (size - pos)) i) by lia.
      rewrite (lookup_seqZ_ge 0 size) by lia.
      reflexivity.
  - rewrite lookup_take_ge by lia.
    rewrite (lookup_seqZ_ge 0 (Z.min count (size - pos)) i) by lia.
    reflexivity.
Qed.

(** C4 as stated fails: for the node [(c)] with byte range [5,8) and the
    three-character buffer "abc", [get_source_range] does not return the
    slice from 5 to 8 but leaves by [std::out_of_range]. *)
Lemma get_source_range_short_buffer_throws :
  node.get_byte_range (abc_node [2%nat]) = {| start := 5; end_ := 8 |} /\
  node.get_source_range (abc_node [2%nat]) (sv_of_string "abc") = Throw out_of_range /\
  node.get_source_range (abc_node [2%nat]) (sv_of_string "abc")
    <> Ret (source_slice (abc_node [2%nat]) (sv_of_string "abc")).
Proof. repeat split; try reflexivity. discriminate. Qed.

(** C4, amended: for every node and every buffer, [get_source_range] checks
    the start of the byte range against the buffer: if the start lies beyond
    the buffer's length the call throws [std::out_of_range]; otherwise it
    returns the characters of the buffer from the start (inclusive) up to the
    end (exclusive) or the end of the buffer, whichever comes first.  When the
    byte range lies within the buffer, as for the buffer that was parsed, the
    result is exactly the slice from start to end. *)
Theorem get_source_range_checked (n : node.t) (source : string_view) :
  sv_valid source ->
  let r := node.get_byte_range n in
  (sv_size source < start r /\
   node.get_source_range n source = Throw out_of_range) \/
  (start r <= sv_size source /\
   exists v, node.get_source_range n source = Ret v /\
     sv_chars v = take (Z.to_nat (to_uint32 (end_ r - start r)))
                       (drop (Z.to_nat (start r)) (sv_chars source)) /\
     (start r <= end_ r <= sv_size source -> v = source_slice n source)).
Proof.
  intros Hvalid r.
  pose proof (byte_range_start_nonneg n) as Hstart.
  assert (Hend : end_ r < 2 ^ 32) by (subst r; simpl; apply to_uint32_range).
  unfold node.get_source_range, source_slice, substr. fold r in Hstart |- *.
  generalize dependent (end_ r). generalize dependent (start r).
  intros s Hs e He.
  pose proof (to_uint32_range (e - s)) as Hcount.
  destruct (decide (sv_size source < s)) as [Hlt|Hge].
  - left. split; [exact Hlt | reflexivity].
  - right. split; [lia|]. eexists. split; [reflexivity|]. split.
    + unfold sv_chars. cbn [sv_data sv_size]. apply read_chars_sub; lia.
    + intros [Hle Hin]. f_equal.
      rewrite to_uint32_small by lia. lia.
Qed.

Lemma get_source_range_checked_witness :
  sv_valid (sv_of_string "(bbb,ccc)") /\
  sv_chars <$> node.get_source_range (abc_node [2%nat]) (sv_of_string "(bbb,ccc)")
    = Ret (list_ascii_of_string "ccc").
Proof.
  assert (Hv : sv_valid (sv_of_string "(bbb,ccc)")).
  { unfold sv_valid, ptr_in_bounds, size_t_max. simpl. lia. }
  split; [exact Hv|].
  destruct (get_source_range_checked (abc_node [2%nat]) (sv_of_string "(bbb,ccc)") Hv)
    as [[Hlt _]|[_ [v [Hret [Hchars _]]]]].
  - simpl in Hlt. vm_compute in Hlt. discriminate Hlt.
  - rewrite Hret. simpl. rewrite Hchars. reflexivity.
Defined.

(** ** String arguments handed to the engine *)

Lemma front_defined (s : string_view) :
  sv_size s <> 0 -> front s = Ret (sv_data s).
Proof. intros H. unfold front. destruct (decide (sv_size s = 0)); [contradiction|reflexivity]. Qed.

Lemma front_empty (s : string_view) : sv_size s = 0 -> front s = Undefined.
Proof. intros H. unfold front. destruct (decide (sv_size s = 0)); [reflexivity|contradiction]. Qed.

(** C10 as stated fails: for a name of 2^32 characters, which is not empty,
    the length handed to the engine is 0 and not the length of the name. *)
Lemma huge_name_length_truncated :
  sv_valid huge_view /\ sv_size huge_view <> 0 /\
  first_char_and_length huge_view = Ret (sv_data huge_view, 0) /\
  first_char_and_length huge_view <> Ret (sv_data huge_view, sv_size huge_view) /\
  language.get_symbol_for_name (language.mk abc_language) huge_view true
    = Ret (ts_language_symbol_for_name abc_language (sv_data huge_view) 0 true) /\
  node.get_child_by_field_name (abc_node []) huge_view
    = Ret (node.mk (ts_node_child_by_field_name (node.impl (abc_node []))
                                                 (sv_data huge_view) 0)).
Proof.
  split; [|split; [|split; [|split; [|split]]]].
  - unfold sv_valid, ptr_in_bounds, size_t_max. simpl. lia.
  - discriminate.
  - reflexivity.
  - intros H. vm_compute in H. discriminate H.
  - reflexivity.
  - reflexivity.
Qed.

(** C10, amended: [get_symbol_for_name], [get_child_by_field_name] and
    [parse_string] take the address of the first character of their string
    argument.  For an empty argument none of them has a defined result.  For
    every non-empty argument the characters handed to the engine lie inside
    the argument, and the length handed over is the argument's length reduced
    to 32 bits, which is exactly the argument's length for every argument
    shorter than 2^32 characters. *)
Theorem string_argument_passing (l : language.t) (n : node.t) (p : parser.t)
    (E : engine) (isNamed : bool) (name : string_view) :
  sv_valid name ->
  (sv_size name = 0 /\
   language.get_symbol_for_name l name isNamed = Undefined /\
   node.get_child_by_field_name n name = Undefined /\
   parser.parse_string p name E = Undefined) \/
  (0 < sv_size name /\
   let len := to_uint32 (sv_size name) in
   ptr_in_bounds (sv_data name) len /\
   len <= sv_size name /\
   (sv_size name < 2 ^ 32 -> len = sv_size name) /\
   first_char_and_length name = Ret (sv_data name, len) /\
   language.get_symbol_for_name l name isNamed
     = Ret (ts_language_symbol_for_name (language.impl l) (sv_data name) len isNamed) /\
   node.get_child_by_field_name n name
     = Ret (node.mk (ts_node_child_by_field_name (node.impl n) (sv_data name) len)) /\
   parser.parse_string p name E
     = ('(raw, E') ← ts_parser_parse_string (unique_ptr.get (parser.impl p)) None
                                            (sv_data name) len E;
        Ret (tree.ctor raw, E'))).
Proof.
  intros [(Hoff & Hsize & Hfit) Hmax].
  destruct (decide (sv_size name = 0)) as [Hempty|Hnonempty].
  - left. split; [exact Hempty|].
    unfold language.get_symbol_for_name, node.get_child_by_field_name,
      parser.parse_string, first_char_and_length.
    rewrite (front_empty name Hempty). repeat split; reflexivity.
  - right. split; [lia|]. intros len.
    pose proof (to_uint32_range (sv_size name)) as Hlen. fold len in Hlen.
    assert (Hle : len <= sv_size name).
    { subst len. unfold to_uint32. apply Z.mod_le; lia. }
    split; [unfold ptr_in_bounds; lia|].
    split; [exact Hle|].
    split; [intros Hsmall; subst len; apply to_uint32_small; lia|].
    unfold language.get_symbol_for_name, node.get_child_by_field_name,
      parser.parse_string, first_char_and_length.
    rewrite (front_defined name Hnonempty). repeat split; reflexivity.
Qed.

Lemma string_argument_passing_witness :
  sv_valid (sv_of_string "left") /\
  language.get_symbol_for_name (language.mk abc_language) (sv_of_string "left") true
    = Ret (ts_language_symbol_for_name abc_language (c_str "left") 4 true) /\
  node.get_child_by_field_name (abc_node []) (sv_of_string "left")
    = Ret (node.mk (ts_node_child_by_field_name (node.impl (abc_node []))
                                                 (c_str "left") 4)).
Proof.
  assert (Hv : sv_valid (sv_of_string "left")).
  { unfold sv_valid, ptr_in_bounds, size_t_max. simpl. lia. }
  split; [exact Hv|].
  destruct (string_argument_passing (language.mk abc_language) (abc_node [])
              (parser.mk (unique_ptr.mk None ts_parser_delete)) engine_empty true
              (sv_of_string "left") Hv)
    as [[Hempty _]|[_ (_ & _ & _ & _ & Hsym & Hfield & _)]].
  - discriminate Hempty.
  - split; [exact Hsym | exact Hfield].
Defined.

(** ** Navigation between nodes *)

Lemma subtree_at_snoc (s : Subtree) (p : list nat) (k : nat) :
  subtree_at s (p ++ [k]) = sp ← subtree_at s p; st_children sp !! k.
Proof.
  revert s. induction p as [|j p IH]; intros s; simpl.
  - destruct (st_children s !! k); reflexivity.
  - destruct (st_children s !! j) as [c|]; simpl; [apply IH | reflexivity].
Qed.

Lemma nth_child_of_nat (cs : list Subtree) (k : nat) :
  nth_child cs (Z.of_nat k) = cs !! k.
Proof.
  unfold nth_child. destruct (decide (0 <= Z.of_nat k)); [|lia].
  rewrite Nat2Z.id. reflexivity.
Qed.

(** Equal identities of non-null nodes mean equal positions. *)
Lemma get_id_inj (n m : node.t) :
  node.is_null n = false -> node.get_id n = node.get_id m ->
  ts_id (node.impl n) = ts_id (node.impl m).
Proof.
  unfold node.is_null, ts_node_is_null, node.get_id, ts_node_id_bits.
  destruct (ts_id (node.impl n)) as [p|], (ts_id (node.impl m)) as [q|];
    intros Hnull Hid; try discriminate.
  f_equal. apply (inj encode). congruence.
Qed.

(** The parent of a position reached by a non-empty path holds that position
    as the child at the path's last index. *)
Lemma parent_holds_child (T : TSTree) (p : list nat) (s : Subtree) :
  p <> [] -> subtree_at (tree_root T) p = Some s ->
  exists sq k, p = removelast p ++ [k] /\
    subtree_at (tree_root T) (removelast p) = Some sq /\
    st_children sq !! k = Some s.
Proof.
  intros Hne Hat.
  pose proof (app_removelast_last 0%nat Hne) as Hp.
  rewrite Hp, subtree_at_snoc in Hat.
  destruct (subtree_at (tree_root T) (removelast p)) as [sq|] eqn:Hq;
    [|discriminate].
  exists sq, (List.last p 0%nat). auto.
Qed.

(** Nodes reached from a node of a tree by [get_child] or [get_parent] are
    null or again nodes of that tree. *)
Lemma get_child_valid (n : node.t) (i : Z) :
  node.is_null (node.get_child n i) = true \/
  node_valid (node.impl (node.get_child n i)).
Proof.
  unfold node.get_child, ts_node_child. simpl.
  destruct (node_subtree (node.impl n)) as [s|] eqn:Hs; [|left; reflexivity].
  destruct (ts_id (node.impl n)) as [p|] eqn:Hp; [|left; reflexivity].
  unfold nth_child. destruct (decide (0 <= i)); [|left; reflexivity].
  destruct (st_children s !! Z.to_nat i) as [c|] eqn:Hc; [|left; reflexivity].
  right. unfold node_valid, node_subtree in *. simpl.
  destruct (ts_tree (node.impl n)) as [T|]; [|discriminate]. simpl in *.
  rewrite Hp in Hs. simpl in Hs.
  rewrite subtree_at_snoc, Hs. simpl. eauto.
Qed.

Lemma get_parent_valid (n : node.t) :
  node_valid (node.impl n) ->
  node.is_null (node.get_parent n) = true \/
  node_valid (node.impl (node.get_parent n)).
Proof.
  destruct n as [[tr id]]. unfold node_valid, node_subtree. simpl.
  intros [s Hs].
  destruct tr as [T|]; [|discriminate]. destruct id as [p|]; [|discriminate].
  simpl in Hs. unfold node.get_parent, ts_node_parent. simpl.
  destruct p as [|k0 rest]; [left; reflexivity|]. right.
  destruct (parent_holds_child T (k0 :: rest) s) as (sq & k & _ & Hq & _);
    [discriminate | exact Hs |].
  simpl. eauto.
Qed.

(** C7: for every node of a tree whose [get_parent()] is not null there is an
    index [k] below the parent's child count such that
    [get_parent().get_child(k)] has the same [get_id()] as the node. *)
Theorem parent_child_round_trip (n : node.t) :
  node_valid (node.impl n) ->
  node.is_null (node.get_parent n) = false ->
  exists k, 0 <= k < node.get_num_children (node.get_parent n) /\
    node.get_id (node.get_child (node.get_parent n) k) = node.get_id n.
Proof.
  destruct n as [[tr id]]. unfold node_valid, node_subtree. simpl.
  intros [s Hs] Hparent.
  destruct tr as [T|]; [|discriminate]. destruct id as [p|]; [|discriminate].
  simpl in Hs.
  destruct p as [|k0 rest]; [discriminate|].
  destruct (parent_holds_child T (k0 :: rest) s) as (sq & k & Hp & Hq & Hk);
    [discriminate | exact Hs |].
  exists (Z.of_nat k).
  unfold node.get_num_children, node.get_child, node.get_id, node.get_parent,
    ts_node_child_count, ts_node_child, ts_node_parent, ts_node_id_bits,
    node_subtree.
  cbn [node.impl ts_tree ts_id mbind option_bind].
  rewrite Hq. cbn [from_option].
  rewrite nth_child_of_nat, Hk, Nat2Z.id. cbn [ts_id].
  rewrite <- Hp. split; [|reflexivity].
  apply lookup_lt_Some in Hk. lia.
Qed.

Lemma parent_child_round_trip_witness :
  node_valid (node.impl (abc_node [2%nat])) /\
  node.is_null (node.get_parent (abc_node [2%nat])) = false /\
  exists k, 0 <= k < node.get_num_children (node.get_parent (abc_node [2%nat])) /\
    node.get_id (node.get_child (node.get_parent (abc_node [2%nat])) k)
    = node.get_id (abc_node [2%nat]).
Proof.
  assert (Hv : node_valid (node.impl (abc_node [2%nat]))).
  { unfold node_valid. vm_compute. eexists. reflexivity. }
  split; [exact Hv|]. split; [reflexivity|].
  apply (parent_child_round_trip (abc_node [2%nat]) Hv). reflexivity.
Defined.

(** ** Cursors *)

Lemma cursor_stack_insert_eq (c : TSTreeCursor) (st : list TSNode) (E : engine) :
  cursor_stack c (set_cursors (insert (tc_id c) st) E) = Some st.
Proof. unfold cursor_stack, set_cursors. simpl. apply lookup_insert_eq. Qed.

Lemma cursor_stack_insert_ne (c d : TSTreeCursor) (st : list TSNode) (E : engine) :
  tc_id c <> tc_id d ->
  cursor_stack d (set_cursors (insert (tc_id c) st) E) = cursor_stack d E.
Proof. intros H. unfold cursor_stack, set_cursors. simpl. by apply lookup_insert_ne. Qed.

Lemma current_node_stack (c : cursor.t) (E : engine) (cur : node.t) :
  cursor.get_current_node c E = Ret cur <->
  exists rest, cursor_stack (cursor.impl c) E = Some (node.impl cur :: rest).
Proof.
  unfold cursor.get_current_node, ts_tree_cursor_current_node.
  destruct (cursor_stack (cursor.impl c) E) as [[|x xs]|]; simpl; split;
    try discriminate; try (intros [rest H]; discriminate).
  - intros H. injection H as <-. eauto.
  - intros [rest H]. injection H as -> _. by destruct cur.
Qed.

(** C5: for every cursor and node [n], after [reset(n)] a call of
    [goto_parent()] returns false and changes nothing, so that the current
    node is still [n]; this holds whether or not [n] has a parent in its
    tree. *)
Theorem reset_then_goto_parent (c : cursor.t) (n : node.t) (E : engine) :
  is_Some (cursor_stack (cursor.impl c) E) ->
  exists E1, cursor.reset c n E = Ret E1 /\
    cursor.goto_parent c E1 = Ret (false, E1) /\
    cursor.get_current_node c E1 = Ret n.
Proof.
  intros [st Hst]. eexists. split.
  - unfold cursor.reset, ts_tree_cursor_reset. rewrite Hst. reflexivity.
  - unfold cursor.goto_parent, ts_tree_cursor_goto_parent,
      cursor.get_current_node, ts_tree_cursor_current_node.
    rewrite cursor_stack_insert_eq. split; [reflexivity|]. by destruct n.
Qed.

Lemma reset_then_goto_parent_witness :
  is_Some (cursor_stack (cursor.impl (fst abc_cursor)) (snd abc_cursor)) /\
  node.is_null (node.get_parent (abc_node [0%nat])) = false /\
  exists E1, cursor.reset (fst abc_cursor) (abc_node [0%nat]) (snd abc_cursor) = Ret E1 /\
    cursor.goto_parent (fst abc_cursor) E1 = Ret (false, E1) /\
    cursor.get_current_node (fst abc_cursor) E1 = Ret (abc_node [0%nat]).
Proof.
  assert (Hlive : is_Some (cursor_stack (cursor.impl (fst abc_cursor)) (snd abc_cursor))).
  { vm_compute. eexists. reflexivity. }
  split; [exact Hlive|]. split; [reflexivity|].
  exact (reset_then_goto_parent (fst abc_cursor) (abc_node [0%nat]) (snd abc_cursor) Hlive).
Defined.

(** A navigation call on a cursor with a current position is defined, leaves
    that cursor with a current position, and leaves every other cursor's
    stack as it was. *)
Lemma navigate_frame (s : navigation) (c : cursor.t) (E : engine)
    (x : TSNode) (xs : list TSNode) :
  cursor_stack (cursor.impl c) E = Some (x :: xs) ->
  exists b E' y ys, navigate s c E = Ret (b, E') /\
    cursor_stack (cursor.impl c) E' = Some (y :: ys) /\
    forall d, tc_id (cursor.impl c) <> tc_id d -> cursor_stack d E' = cursor_stack d E.
Proof.
  intros Hst.
  destruct s; unfold navigate, cursor.goto_first_child, cursor.goto_next_sibling,
    cursor.goto_parent, ts_tree_cursor_goto_first_child,
    ts_tree_cursor_goto_next_sibling, ts_tree_cursor_goto_parent; rewrite Hst.
  - destruct (ts_node_is_null (ts_node_child x 0)).
    + exists false, E, x, xs. auto.
    + do 4 eexists. split; [reflexivity|]. split.
      * apply cursor_stack_insert_eq.
      * intros d Hd. by apply cursor_stack_insert_ne.
  - destruct (ts_node_is_null (ts_node_next_sibling x)).
    + exists false, E, x, xs. auto.
    + do 4 eexists. split; [reflexivity|]. split.
      * apply cursor_stack_insert_eq.
      * intros d Hd. by apply cursor_stack_insert_ne.
  - destruct xs as [|parent rest].
    + exists false, E, x, []. auto.
    + do 4 eexists. split; [reflexivity|]. split.
      * apply cursor_stack_insert_eq.
      * intros d Hd. by apply cursor_stack_insert_ne.
Qed.

Lemma navigate_all_frame (steps : list navigation) (c : cursor.t) (E : engine)
    (x : TSNode) (xs : list TSNode) :
  cursor_stack (cursor.impl c) E = Some (x :: xs) ->
  exists E', navigate_all steps c E = Ret E' /\
    forall d, tc_id (cursor.impl c) <> tc_id d -> cursor_stack d E' = cursor_stack d E.
Proof.
  revert E x xs. induction steps as [|s steps IH]; intros E x xs Hst; simpl.
  - eauto.
  - destruct (navigate_frame s c E x xs Hst) as (b & E1 & y & ys & Hnav & Hst1 & Hframe).
    rewrite Hnav. simpl.
    destruct (IH E1 y ys Hst1) as (E2 & Hall & Hframe2).
    exists E2. split; [exact Hall|].
    intros d Hd. rewrite Hframe2, Hframe by exact Hd. reflexivity.
Qed.

(** C6: for every cursor with a current node, [copy()] gives a cursor at the
    same node whose traversal state is its own: whatever sequence of
    [goto_first_child], [goto_next_sibling] and [goto_parent] calls is made on
    the copy, each call is defined and the current node of the original stays
    what it was. *)
Theorem copy_is_independent (c : cursor.t) (E : engine) (cur : node.t)
    (steps : list navigation) :
  cursor.get_current_node c E = Ret cur ->
  exists c' E1 E2,
    cursor.copy c E = Ret (c', E1) /\
    cursor.get_current_node c' E1 = Ret cur /\
    navigate_all steps c' E1 = Ret E2 /\
    cursor.get_current_node c E2 = Ret cur.
Proof.
  intros Hcur. apply current_node_stack in Hcur as [rest Hst].
  set (a := fresh (dom (eng_cursors E))).
  assert (Hfresh : a <> tc_id (cursor.impl c)).
  { intros Heq. apply (is_fresh (dom (eng_cursors E))). fold a. rewrite Heq.
    apply elem_of_dom. unfold cursor_stack in Hst. rewrite Hst. eauto. }
  set (c' := cursor.mk {| tc_id := a |}).
  set (E1 := set_cursors (insert a (node.impl cur :: rest)) E).
  assert (Hst' : cursor_stack (cursor.impl c') E1 = Some (node.impl cur :: rest)).
  { apply (cursor_stack_insert_eq {| tc_id := a |}). }
  destruct (navigate_all_frame steps c' E1 _ _ Hst') as (E2 & Hall & Hframe).
  exists c', E1, E2. split; [|split; [|split]].
  - unfold cursor.copy, cursor.ctor_copy, ts_tree_cursor_copy. rewrite Hst.
    reflexivity.
  - apply current_node_stack. eauto.
  - exact Hall.
  - apply current_node_stack. exists rest.
    rewrite Hframe by exact Hfresh.
    unfold E1. rewrite (cursor_stack_insert_ne {| tc_id := a |}) by exact Hfresh.
    exact Hst.
Qed.

Lemma copy_is_independent_witness :
  cursor.get_current_node (fst abc_cursor) (snd abc_cursor) = Ret (abc_node []) /\
  exists c' E1 E2,
    cursor.copy (fst abc_cursor) (snd abc_cursor) = Ret (c', E1) /\
    cursor.get_current_node c' E1 = Ret (abc_node []) /\
    navigate_all [GotoFirstChild; GotoNextSibling] c' E1 = Ret E2 /\
    cursor.get_current_node (fst abc_cursor) E2 = Ret (abc_node []).
Proof.
  split; [reflexivity|].
  apply (copy_is_independent (fst abc_cursor) (snd abc_cursor) (abc_node [])
           [GotoFirstChild; GotoNextSibling]).
  reflexivity.
Defined.

(** ** Ownership of tree storage *)

Lemma owns_in_insert (V : gmap string tree.t) (x z : string) (t : tree.t) (b : nat) :
  owns_in (<[x := t]> V) z b <->
  (z = x /\ unique_ptr.get (tree.impl t) = Some b) \/ (z <> x /\ owns_in V z b).
Proof.
  unfold owns_in. destruct (decide (z = x)) as [->|Hne].
  - rewrite lookup_insert_eq. split.
    + intros [t' [Ht Hb]]. injection Ht as <-. left. auto.
    + intros [[_ Hb]|[Hne _]]; [eauto | congruence].
  - rewrite lookup_insert_ne by congruence. split.
    + intros H. right. auto.
    + intros [[Heq _]|[_ H]]; [congruence | exact H].
Qed.

Lemma owns_in_delete (V : gmap string tree.t) (x z : string) (b : nat) :
  owns_in (delete x V) z b <-> z <> x /\ owns_in V z b.
Proof.
  unfold owns_in. destruct (decide (z = x)) as [->|Hne].
  - rewrite lookup_delete_eq. split.
    + intros [t [Ht _]]. discriminate.
    + intros [Hne _]. congruence.
  - rewrite lookup_delete_ne by congruence. split; [auto | intros [_ H]; exact H].
Qed.

(** An owned handle addresses storage that has not been released. *)
Lemma owned_is_live V Tr x a :
  ownership_on V Tr -> owns_in V x a ->
  exists c, Tr !! a = Some c /\ cell_deletes c = 0%nat.
Proof.
  intros Hinv Hown.
  destruct (own_allocated _ _ Hinv x a Hown) as [c Hc].
  exists c. split; [exact Hc|].
  destruct (own_cells _ _ Hinv a c Hc) as [[H0 _]|[_ Hnone]]; [exact H0|].
  destruct (Hnone x Hown).
Qed.

Lemma ownership_on_empty : ownership_on ∅ ∅.
Proof.
  split.
  - intros x t H. rewrite lookup_empty in H. discriminate.
  - intros x y a [t [H _]]. rewrite lookup_empty in H. discriminate.
  - intros a c H. rewrite lookup_empty in H. discriminate.
  - intros x a [t [H _]]. rewrite lookup_empty in H. discriminate.
Qed.

(** A tree object is declared for newly allocated storage. *)
Lemma ownership_alloc V Tr x a T :
  ownership_on V Tr -> V !! x = None -> Tr !! a = None ->
  ownership_on (<[x := tree.ctor (Some a)]> V)
               (<[a := {| cell_tree := T; cell_deletes := 0 |}]> Tr).
Proof.
  intros Hinv Hx Ha.
  assert (Hnox : forall b, ~ owns_in V x b).
  { intros b [t [Ht _]]. congruence. }
  assert (Hnoa : forall z, ~ owns_in V z a).
  { intros z Hz. destruct (own_allocated _ _ Hinv z a Hz) as [c Hc]. congruence. }
  split.
  - intros z t Hz. destruct (decide (z = x)) as [->|Hne].
    + rewrite lookup_insert_eq in Hz. injection Hz as <-. reflexivity.
    + rewrite lookup_insert_ne in Hz by congruence. eapply own_deleter; eauto.
  - intros y z b Hy Hz. apply owns_in_insert in Hy, Hz. simpl in Hy, Hz.
    destruct Hy as [[-> Hy]|[Hy1 Hy2]], Hz as [[-> Hz]|[Hz1 Hz2]].
    + reflexivity.
    + injection Hy as <-. destruct (Hnoa _ Hz2).
    + injection Hz as <-. destruct (Hnoa _ Hy2).
    + eapply own_unique; eauto.
  - intros b c Hb. destruct (decide (b = a)) as [->|Hne].
    + rewrite lookup_insert_eq in Hb. injection Hb as <-. left.
      split; [reflexivity|]. exists x. apply owns_in_insert. left. auto.
    + rewrite lookup_insert_ne in Hb by congruence.
      destruct (own_cells _ _ Hinv b c Hb) as [[H0 [z Hz]]|[H1 Hnone]].
      * left. split; [exact H0|]. exists z. apply owns_in_insert. right.
        split; [|exact Hz]. intros ->. destruct (Hnox _ Hz).
      * right. split; [exact H1|]. intros z Hz. apply owns_in_insert in Hz.
        simpl in Hz. destruct Hz as [[_ Hz]|[_ Hz]]; [congruence|].
        destruct (Hnone _ Hz).
  - intros z b Hz. apply owns_in_insert in Hz. simpl in Hz.
    destruct Hz as [[_ Hz]|[_ Hz]].
    + injection Hz as <-. rewrite lookup_insert_eq. eauto.
    + destruct (own_allocated _ _ Hinv z b Hz) as [c Hc].
      destruct (decide (b = a)) as [->|Hne]; [congruence|].
      rewrite lookup_insert_ne by congruence. eauto.
Qed.

(** The discipline depends on the tree objects only through their deleters
    and the handles they hold. *)
Lemma ownership_same_owners V V' Tr :
  ownership_on V Tr ->
  (forall x t, V' !! x = Some t ->
     unique_ptr.get_deleter (tree.impl t) = ts_tree_delete) ->
  (forall z b, owns_in V' z b <-> owns_in V z b) ->
  ownership_on V' Tr.
Proof.
  intros Hinv Hdel Hsame. split.
  - exact Hdel.
  - intros x y a Hx Hy. apply Hsame in Hx, Hy. eapply own_unique; eauto.
  - intros a c Hc. destruct (own_cells _ _ Hinv a c Hc) as [[H0 [z Hz]]|[H1 Hnone]].
    + left. split; [exact H0|]. exists z. apply Hsame. exact Hz.
    + right. split; [exact H1|]. intros z Hz. apply Hsame in Hz.
      destruct (Hnone _ Hz).
  - intros x a Hx. apply Hsame in Hx. eapply own_allocated; eauto.
Qed.

(** The scope of a tree object that holds no handle ends. *)
Lemma ownership_remove V Tr x :
  ownership_on V Tr -> (forall b, ~ owns_in V x b) ->
  ownership_on (delete x V) Tr.
Proof.
  intros Hinv Hnone. apply (ownership_same_owners V); [exact Hinv| |].
  - intros z t Hz. apply lookup_delete_Some in Hz as [_ Hz].
    eapply own_deleter; eauto.
  - intros z b. rewrite owns_in_delete. split; [intros [_ H]; exact H|].
    intros H. split; [|exact H]. intros ->. destruct (Hnone _ H).
Qed.

(** A tree object hands everything it holds to an object that holds nothing. *)
Lemma ownership_transfer V Tr x y tx tx' ty' :
  ownership_on V Tr -> V !! x = Some tx -> x <> y ->
  (forall b, ~ owns_in V y b) ->
  unique_ptr.get (tree.impl tx') = None ->
  unique_ptr.get_deleter (tree.impl tx') = ts_tree_delete ->
  unique_ptr.get (tree.impl ty') = unique_ptr.get (tree.impl tx) ->
  unique_ptr.get_deleter (tree.impl ty') = ts_tree_delete ->
  ownership_on (<[y := ty']> (<[x := tx']> V)) Tr.
Proof.
  intros Hinv Hx Hxy Hynone Hgx Hdx Hgy Hdy.
  assert (Hchar : forall z b, owns_in (<[y := ty']> (<[x := tx']> V)) z b <->
            (z = y /\ owns_in V x b) \/ (z <> y /\ z <> x /\ owns_in V z b)).
  { intros z b. rewrite !owns_in_insert, Hgx, Hgy. split.
    - intros [[-> Hb]|[Hzy [[_ Hb]|[Hzx Hb]]]].
      + left. split; [reflexivity|]. exists tx. auto.
      + discriminate.
      + right. auto.
    - intros [[-> [t [Ht Hb]]]|(Hzy & Hzx & Hb)].
      + left. split; [reflexivity|]. congruence.
      + right. split; [exact Hzy|]. right. auto. }
  split.
  - intros z t Hz. destruct (decide (z = y)) as [->|Hzy].
    + rewrite lookup_insert_eq in Hz. congruence.
    + rewrite lookup_insert_ne in Hz by congruence.
      destruct (decide (z = x)) as [->|Hzx].
      * rewrite lookup_insert_eq in Hz. congruence.
      * rewrite lookup_insert_ne in Hz by congruence. eapply own_deleter; eauto.
  - intros z1 z2 b H1 H2. apply Hchar in H1, H2.
    destruct H1 as [[-> H1]|(Hy1 & Hx1 & H1)], H2 as [[-> H2]|(Hy2 & Hx2 & H2)].
    + reflexivity.
    + destruct Hx2. eapply own_unique; eauto.
    + destruct Hx1. eapply own_unique; eauto.
    + eapply own_unique; eauto.
  - intros b c Hc. destruct (own_cells _ _ Hinv b c Hc) as [[H0 [z Hz]]|[H1 Hnone]].
    + left. split; [exact H0|]. destruct (decide (z = x)) as [->|Hzx].
      * exists y. apply Hchar. left. auto.
      * exists z. apply Hchar. right. split; [|auto].
        intros ->. destruct (Hynone _ Hz).
    + right. split; [exact H1|]. intros z Hz. apply Hchar in Hz.
      destruct Hz as [[_ Hz]|(_ & _ & Hz)]; destruct (Hnone _ Hz).
  - intros z b Hz. apply Hchar in Hz.
    destruct Hz as [[_ Hz]|(_ & _ & Hz)]; eapply own_allocated; eauto.
Qed.

(** A tree object releases the storage it holds and keeps a null handle. *)
Lemma ownership_release V Tr x o c tx' :
  ownership_on V Tr -> owns_in V x o -> Tr !! o = Some c ->
  unique_ptr.get (tree.impl tx') = None ->
  unique_ptr.get_deleter (tree.impl tx') = ts_tree_delete ->
  ownership_on (<[x := tx']> V)
    (<[o := {| cell_tree := cell_tree c; cell_deletes := S (cell_deletes c) |}]> Tr).
Proof.
  intros Hinv Hown Hc Hgx Hdx.
  assert (Hlive : cell_deletes c = 0%nat).
  { destruct (owned_is_live V Tr x o Hinv Hown) as [c' [Hc' H0]]. congruence. }
  assert (Hchar : forall z b, owns_in (<[x := tx']> V) z b <->
            z <> x /\ owns_in V z b).
  { intros z b. rewrite owns_in_insert, Hgx. split.
    - intros [[_ H]|H]; [discriminate | exact H].
    - intros H. right. exact H. }
  split.
  - intros z t Hz. destruct (decide (z = x)) as [->|Hzx].
    + rewrite lookup_insert_eq in Hz. congruence.
    + rewrite lookup_insert_ne in Hz by congruence. eapply own_deleter; eauto.
  - intros z1 z2 b H1 H2. apply Hchar in H1 as [_ H1], H2 as [_ H2].
    eapply own_unique; eauto.
  - intros b c' Hc'. destruct (decide (b = o)) as [->|Hbo].
    + rewrite lookup_insert_eq in Hc'. injection Hc' as <-. right. simpl.
      split; [rewrite Hlive; reflexivity|].
      intros z Hz. apply Hchar in Hz as [Hzx Hz]. destruct Hzx.
      eapply own_unique; eauto.
    + rewrite lookup_insert_ne in Hc' by congruence.
      destruct (own_cells _ _ Hinv b c' Hc') as [[H0 [z Hz]]|[H1 Hnone]].
      * left. split; [exact H0|]. exists z. apply Hchar. split; [|exact Hz].
        intros ->. destruct Hown as [t [Ht Ho]], Hz as [t' [Ht' Hb]]. congruence.
      * right. split; [exact H1|]. intros z Hz. apply Hchar in Hz as [_ Hz].
        destruct (Hnone _ Hz).
  - intros z b Hz. apply Hchar in Hz as [_ Hz].
    destruct (own_allocated _ _ Hinv z b Hz) as [c' Hc'].
    destruct (decide (b = o)) as [->|Hbo].
    + rewrite lookup_insert_eq. eauto.
    + rewrite lookup_insert_ne by congruence. eauto.
Qed.

(** [parse_string] wraps newly allocated tree storage, held by no one yet. *)
Lemma parse_string_returns (p : parser.t) (buffer : string_view) (E E' : engine)
    (t : tree.t) :
  parser.parse_string p buffer E = Ret (t, E') ->
  exists a T, eng_trees E !! a = None /\ t = tree.ctor (Some a) /\
    eng_trees E' = <[a := {| cell_tree := T; cell_deletes := 0 |}]> (eng_trees E).
Proof.
  unfold parser.parse_string.
  destruct (first_char_and_length buffer) as [[str len]| |]; simpl;
    [|discriminate|discriminate].
  unfold ts_parser_parse_string.
  destruct (unique_ptr.get (parser.impl p) ≫= _) as [[l|]|]; simpl;
    try discriminate.
  intros H. injection H as <- <-.
  eexists _, _. split; [|split; reflexivity].
  apply not_elem_of_dom, is_fresh.
Qed.

Lemma exec_preserves_ownership (s : stmt) (σ σ' : state) :
  ownership σ -> exec s σ = Some σ' -> ownership σ'.
Proof.
  unfold ownership. intros Hinv Hexec. destruct s as [x buffer|y x|y x|x];
    simpl in Hexec.
  - (* DeclParse *)
    destruct (vars σ !! x) as [tx|] eqn:Hx; [discriminate|].
    destruct (parser.parse_string (the_parser σ) buffer (eng σ))
      as [[t E']| |] eqn:Hparse; try discriminate.
    injection Hexec as <-. simpl.
    apply parse_string_returns in Hparse as (a & T & Ha & -> & ->).
    by apply ownership_alloc.
  - (* DeclMove *)
    destruct (vars σ !! x) as [tx|] eqn:Hx; [|discriminate].
    destruct (vars σ !! y) as [ty|] eqn:Hy; [discriminate|].
    injection Hexec as <-. simpl.
    apply (ownership_transfer _ _ x y tx); auto.
    + intros ->. congruence.
    + intros b [t [Ht _]]. congruence.
    + simpl. eapply own_deleter; eauto.
    + simpl. eapply own_deleter; eauto.
  - (* AssignMove *)
    destruct (vars σ !! x) as [tx|] eqn:Hx; [|discriminate]. simpl in Hexec.
    pose proof (own_deleter _ _ Hinv x tx Hx) as Hdx.
    destruct (decide (y = x)) as [->|Hyx].
    + (* self-assignment: the handle is released to a temporary and put back *)
      rewrite lookup_insert_eq in Hexec. simpl in Hexec.
      injection Hexec as <-. simpl. rewrite insert_insert_eq.
      replace (tree.mk (unique_ptr.mk (unique_ptr.get (tree.impl tx))
                         (unique_ptr.get_deleter (tree.impl tx)))) with tx
        by (by destruct tx as [[? ?]]).
      rewrite insert_id by exact Hx. exact Hinv.
    + rewrite lookup_insert_ne in Hexec by congruence.
      destruct (vars σ !! y) as [ty|] eqn:Hy; [|discriminate]. simpl in Hexec.
      pose proof (own_deleter _ _ Hinv y ty Hy) as Hdy.
      unfold unique_ptr.reset in Hexec.
      destruct (unique_ptr.get (tree.impl ty)) as [o|] eqn:Hgy.
      * (* the storage held by y so far is released *)
        rewrite Hdy in Hexec. simpl in Hexec.
        assert (Hown : owns_in (vars σ) y o) by (exists ty; auto).
        destruct (owned_is_live _ _ y o Hinv Hown) as [c [Hc _]].
        rewrite Hc in Hexec. simpl in Hexec. injection Hexec as <-. simpl.
        pose proof (ownership_release _ _ y o c
                      (tree.mk (unique_ptr.mk None ts_tree_delete))
                      Hinv Hown Hc eq_refl eq_refl) as Hrel.
        pose proof (ownership_transfer _ _ x y tx
                      (tree.mk (unique_ptr.mk None (unique_ptr.get_deleter (tree.impl tx))))
                      (tree.mk (unique_ptr.mk (unique_ptr.get (tree.impl tx)) ts_tree_delete))
                      Hrel) as Htr.
        rewrite (insert_insert_ne _ x y), insert_insert_eq in Htr by congruence.
        apply Htr; auto.
        -- rewrite lookup_insert_ne by congruence. exact Hx.
        -- intros b Hb. apply owns_in_insert in Hb. simpl in Hb.
           destruct Hb as [[_ Hb]|[Hb _]]; [discriminate | congruence].
      * injection Hexec as <-. simpl.
        apply (ownership_transfer _ _ x y tx); auto.
        intros b [t [Ht Hb]]. congruence.
  - (* EndScope *)
    destruct (vars σ !! x) as [tx|] eqn:Hx; [|discriminate]. simpl in Hexec.
    pose proof (own_deleter _ _ Hinv x tx Hx) as Hdx.
    unfold tree.dtor, unique_ptr.dtor in Hexec.
    destruct (unique_ptr.get (tree.impl tx)) as [o|] eqn:Hgx.
    + rewrite Hdx in Hexec. simpl in Hexec.
      assert (Hown : owns_in (vars σ) x o) by (exists tx; auto).
      destruct (owned_is_live _ _ x o Hinv Hown) as [c [Hc _]].
      rewrite Hc in Hexec. injection Hexec as <-. simpl.
      pose proof (ownership_release _ _ x o c
                    (tree.mk (unique_ptr.mk None ts_tree_delete))
                    Hinv Hown Hc eq_refl eq_refl) as Hrel.
      apply ownership_remove with (x := x) in Hrel.
      * rewrite delete_insert_eq in Hrel. exact Hrel.
      * intros b Hb. apply owns_in_insert in Hb. simpl in Hb.
        destruct Hb as [[_ Hb]|[Hb _]]; [discriminate | congruence].
    + injection Hexec as <-. simpl. apply ownership_remove; [exact Hinv|].
      intros b [t [Ht Hb]]. congruence.
Qed.

Lemma run_preserves_ownership (prog : list stmt) (σ σ' : state) :
  ownership σ -> run prog σ = Some σ' -> ownership σ'.
Proof.
  revert σ. induction prog as [|s prog IH]; intros σ Hinv Hrun; simpl in Hrun.
  - injection Hrun as <-. exact Hinv.
  - destruct (exec s σ) as [σ1|] eqn:Hexec; [|discriminate]. simpl in Hrun.
    apply (IH σ1); [|exact Hrun].
    eapply exec_preserves_ownership; eauto.
Qed.

Lemma initial_ownership (l : language.t) (σ : state) :
  initial l = Some σ -> ownership σ.
Proof.
  unfold initial, parser.ctor, ts_parser_new, ts_parser_set_language. simpl.
  rewrite lookup_insert_eq. simpl. intros H. injection H as <-.
  unfold ownership. simpl. apply ownership_on_empty.
Qed.

(** The scope of an owning tree object can always end, and that releases the
    storage it holds. *)
Lemma end_scope_releases (σ : state) (x : string) (a : nat) :
  ownership σ -> owns σ x a ->
  releases σ a = Some 0%nat /\
  exists σ', exec (EndScope x) σ = Some σ' /\ releases σ' a = Some 1%nat.
Proof.
  unfold ownership, owns, releases. intros Hinv Hown.
  destruct (owned_is_live _ _ x a Hinv Hown) as [c [Hc Hlive]].
  split; [rewrite Hc; simpl; congruence|].
  destruct Hown as [t [Ht Ha]].
  pose proof (own_deleter _ _ Hinv x t Ht) as Hd.
  simpl. rewrite Ht. simpl. unfold tree.dtor, unique_ptr.dtor.
  rewrite Ha, Hd. simpl. rewrite Hc. eexists. split; [reflexivity|].
  simpl. rewrite lookup_insert_eq. simpl. congruence.
Qed.

Lemma owns_in_holder (V : gmap string tree.t) (x : string) (tx : tree.t)
    (o a : nat) :
  V !! x = Some tx -> unique_ptr.get (tree.impl tx) = Some o ->
  owns_in V x a <-> a = o.
Proof.
  intros Hx Ho. unfold owns_in. split.
  - intros [t [Ht Ha]]. congruence.
  - intros ->. eauto.
Qed.

Lemma owns_in_null (V : gmap string tree.t) (x : string) (tx : tree.t) (a : nat) :
  V !! x = Some tx -> unique_ptr.get (tree.impl tx) = None -> ~ owns_in V x a.
Proof. intros Hx Ho [t [Ht Ha]]. congruence. Qed.

(** The deleter call on a held handle releases live storage, once, and
    touches no other storage. *)
Lemma ts_tree_delete_held (σ : state) (x : string) (tx : tree.t) (o : nat)
    (E' : engine) :
  ownership σ -> vars σ !! x = Some tx ->
  unique_ptr.get (tree.impl tx) = Some o ->
  ts_tree_delete (Some o) (eng σ) = Ret E' ->
  cell_deletes <$> eng_trees (eng σ) !! o = Some 0%nat /\
  cell_deletes <$> eng_trees E' !! o = Some 1%nat /\
  forall a, a <> o -> eng_trees E' !! a = eng_trees (eng σ) !! a.
Proof.
  intros Hinv Hx Ho Hdel.
  assert (Hown : owns_in (vars σ) x o) by (exists tx; auto).
  destruct (owned_is_live _ _ x o Hinv Hown) as (c & Hc & Hlive).
  unfold ts_tree_delete in Hdel. rewrite Hc in Hdel. injection Hdel as <-.
  simpl. rewrite Hc, lookup_insert_eq. simpl. rewrite Hlive.
  split; [reflexivity|]. split; [reflexivity|].
  intros a Ha. by rewrite lookup_insert_ne.
Qed.

(** When a statement releases storage: exactly the storage held by the tree
    object whose scope ends or which a move assignment overwrites, which goes
    from not released to released once; all other storage keeps its count. *)
Lemma exec_release_step (s : stmt) (σ σ' : state) (a : nat) :
  ownership σ -> exec s σ = Some σ' ->
  (releasing s σ a -> releases σ a = Some 0%nat /\ releases σ' a = Some 1%nat) /\
  (~ releasing s σ a -> forall n, releases σ a = Some n -> releases σ' a = Some n).
Proof.
  intros Hinv Hexec. unfold releases.
  destruct s as [x buffer|y x|y x|x]; simpl in Hexec |- *.
  - split; [contradiction|]. intros _ n Hn.
    destruct (vars σ !! x); [discriminate|].
    destruct (parser.parse_string (the_parser σ) buffer (eng σ))
      as [[t E']| |] eqn:Hparse; try discriminate.
    injection Hexec as <-. simpl.
    apply parse_string_returns in Hparse as (a' & T & Ha' & _ & ->).
    destruct (decide (a = a')) as [->|Hne].
    + rewrite Ha' in Hn. discriminate.
    + by rewrite lookup_insert_ne.
  - split; [contradiction|]. intros _ n Hn.
    destruct (vars σ !! x); [|discriminate].
    destruct (vars σ !! y); [discriminate|].
    injection Hexec as <-. exact Hn.
  - destruct (vars σ !! x) as [tx|] eqn:Hx; [|discriminate]. simpl in Hexec.
    destruct (decide (y = x)) as [->|Hyx].
    { rewrite lookup_insert_eq in Hexec. simpl in Hexec. injection Hexec as <-.
      split; [intros [Hne _]; congruence | intros _ n Hn; exact Hn]. }
    rewrite lookup_insert_ne in Hexec by congruence.
    destruct (vars σ !! y) as [ty|] eqn:Hy; [|discriminate]. simpl in Hexec.
    pose proof (own_deleter _ _ Hinv y ty Hy) as Hdy.
    unfold unique_ptr.reset in Hexec. rewrite Hdy in Hexec.
    destruct (unique_ptr.get (tree.impl ty)) as [o|] eqn:Ho.
    + destruct (ts_tree_delete (Some o) (eng σ)) as [E'| |] eqn:Hdel;
        try discriminate.
      simpl in Hexec. injection Hexec as <-. simpl.
      destruct (ts_tree_delete_held σ y ty o E' Hinv Hy Ho Hdel)
        as (Hbefore & Hafter & Hother).
      split.
      * intros [_ Hown]. apply (owns_in_holder _ y ty o a Hy Ho) in Hown as ->.
        auto.
      * intros Hnot n Hn. rewrite Hother; [exact Hn|].
        intros ->. apply Hnot. split; [exact Hyx|].
        by apply (owns_in_holder _ y ty o o Hy Ho).
    + injection Hexec as <-. simpl. split.
      * intros [_ Hown]. destruct (owns_in_null _ y ty a Hy Ho Hown).
      * intros _ n Hn. exact Hn.
  - destruct (vars σ !! x) as [tx|] eqn:Hx; [|discriminate]. simpl in Hexec.
    pose proof (own_deleter _ _ Hinv x tx Hx) as Hdx.
    unfold tree.dtor, unique_ptr.dtor in Hexec. rewrite Hdx in Hexec.
    destruct (unique_ptr.get (tree.impl tx)) as [o|] eqn:Ho.
    + destruct (ts_tree_delete (Some o) (eng σ)) as [E'| |] eqn:Hdel;
        try discriminate.
      injection Hexec as <-. simpl.
      destruct (ts_tree_delete_held σ x tx o E' Hinv Hx Ho Hdel)
        as (Hbefore & Hafter & Hother).
      split.
      * intros Hown. apply (owns_in_holder _ x tx o a Hx Ho) in Hown as ->. auto.
      * intros Hnot n Hn. rewrite Hother; [exact Hn|].
        intros ->. apply Hnot. by apply (owns_in_holder _ x tx o o Hx Ho).
    + injection Hexec as <-. simpl. split.
      * intros Hown. destruct (owns_in_null _ x tx a Hx Ho Hown).
      * intros _ n Hn. exact Hn.
Qed.

Lemma run_client_preserves_ownership (prog : list client_stmt) (σ σ' : state) :
  uses_wrappers_only prog = true ->
  ownership σ -> run_client prog σ = Some σ' -> ownership σ'.
Proof.
  revert σ. induction prog as [|c prog IH]; intros σ Hwrap Hinv Hrun;
    simpl in Hrun, Hwrap.
  - injection Hrun as <-. exact Hinv.
  - apply andb_true_iff in Hwrap as [Hc Hrest].
    destruct c as [s|l buffer|x raw]; try discriminate. simpl in Hrun.
    destruct (exec s σ) as [σ1|] eqn:Hexec; [|discriminate]. simpl in Hrun.
    apply (IH σ1 Hrest); [|exact Hrun].
    eapply exec_preserves_ownership; eauto.
Qed.

(** C1 as stated fails.  A raw handle from the engine can be wrapped in two
    tree objects through the public constructor: both hold handle 0 at the
    same time, and when both are out of scope its storage has been released
    twice.  And storage is not only released at the end of a scope: after a
    move assignment over a live tree, the storage that tree held is released
    while both tree objects are still in scope. *)
Lemma raw_handle_wrapped_twice :
  (exists σ, client_program (language.mk abc_language) (take 3 raw_client) = Some σ /\
     owns σ "a" 0 /\ owns σ "b" 0 /\ releases σ 0 = Some 0%nat) /\
  (exists σ, client_program (language.mk abc_language) raw_client = Some σ /\
     vars σ = ∅ /\ releases σ 0 = Some 2%nat) /\
  (exists σ, client_program (language.mk abc_language) overwrite_client = Some σ /\
     is_Some (vars σ !! "t"%string) /\ is_Some (vars σ !! "u"%string) /\
     releases σ 0 = Some 1%nat).
Proof.
  split; [|split].
  - eexists. split; [vm_compute; reflexivity|].
    split; [eexists; split; vm_compute; reflexivity|].
    split; [eexists; split; vm_compute; reflexivity|].
    vm_compute. reflexivity.
  - eexists. split; [vm_compute; reflexivity|].
    split; vm_compute; reflexivity.
  - eexists. split; [vm_compute; reflexivity|].
    split; [vm_compute; eexists; reflexivity|].
    split; [vm_compute; eexists; reflexivity|].
    vm_compute. reflexivity.
Qed.

(** C1, amended: a tree cannot be copied, only moved.  For client code that
    gets its trees from [parse_string] and otherwise only moves, move-assigns
    and destroys them (it does not wrap a raw engine handle through the
    public constructor), in every reachable state each engine tree handle is
    held by at most one tree object and live storage by exactly one; storage
    is released only when the scope of the object holding it ends or when
    that object is overwritten by a move assignment, and then it goes from
    not released to released once; ending the scope of the holder is always
    possible and releases its storage; and once every tree object is out of
    scope each piece of tree storage the engine allocated has been released
    exactly once. *)
Theorem tree_storage_released_exactly_once (l : language.t)
    (prog : list client_stmt) (σ : state) :
  uses_wrappers_only prog = true ->
  client_program l prog = Some σ ->
  ownership σ /\
  (forall x a, owns σ x a ->
     releases σ a = Some 0%nat /\
     exists σ', exec (EndScope x) σ = Some σ' /\ releases σ' a = Some 1%nat) /\
  (forall s σ' a, exec s σ = Some σ' ->
     (releasing s σ a ->
      releases σ a = Some 0%nat /\ releases σ' a = Some 1%nat) /\
     (~ releasing s σ a ->
      forall n, releases σ a = Some n -> releases σ' a = Some n)) /\
  (vars σ = ∅ ->
   forall a, is_Some (eng_trees (eng σ) !! a) -> releases σ a = Some 1%nat).
Proof.
  unfold client_program. intros Hwrap Hprog.
  destruct (initial l) as [σ0|] eqn:Hinit; [|discriminate]. simpl in Hprog.
  assert (Hinv : ownership σ).
  { eapply run_client_preserves_ownership; [exact Hwrap| |exact Hprog].
    by apply (initial_ownership l). }
  split; [exact Hinv|]. split; [|split].
  - intros x a Hown. by apply end_scope_releases.
  - intros s σ' a Hexec. by apply exec_release_step.
  - intros Hempty a [c Hc]. unfold releases. rewrite Hc. simpl. f_equal.
    destruct (own_cells _ _ Hinv a c Hc) as [[_ [x [t [Ht _]]]]|[H1 _]];
      [|exact H1].
    rewrite Hempty, lookup_empty in Ht. discriminate.
Qed.

Lemma tree_storage_released_exactly_once_witness :
  uses_wrappers_only (Wrapped <$> abc_client) = true /\
  exists σ, client_program (language.mk abc_language) (Wrapped <$> abc_client)
            = Some σ /\
    vars σ = ∅ /\
    releases σ 0 = Some 1%nat /\ releases σ 1 = Some 1%nat.
Proof.
  assert (Hwrap : uses_wrappers_only (Wrapped <$> abc_client) = true)
    by (vm_compute; reflexivity).
  split; [exact Hwrap|].
  eexists. split; [vm_compute; reflexivity|].
  match goal with
  | |- vars ?s = _ /\ _ =>
      assert (Hprog : client_program (language.mk abc_language)
                        (Wrapped <$> abc_client) = Some s)
        by (vm_compute; reflexivity);
      destruct (tree_storage_released_exactly_once (language.mk abc_language)
                  (Wrapped <$> abc_client) s Hwrap Hprog)
        as (_ & _ & _ & Hall)
  end.
  split; [reflexivity|].
  split; apply Hall; try reflexivity; vm_compute; eexists; reflexivity.
Defined.

(** ** Supporting facts and examples *)

(** Were two tree objects to hold the same handle, as a member-wise copy
    would leave them, the end of both scopes would release the storage
    twice. *)
Example shared_handle_released_twice :
  let E := set_trees (insert 0%nat {| cell_tree := abc_tree; cell_deletes := 0 |})
                     engine_empty in
  let σ := {| vars := {[ "t"%string := tree.ctor (Some 0%nat);
                         "u"%string := tree.ctor (Some 0%nat) ]};
              the_parser := parser.mk (unique_ptr.mk None ts_parser_delete);
              eng := E |} in
  (fun σ' => releases σ' 0) <$> run [EndScope "t"; EndScope "u"]%string σ
  = Some (Some 2%nat).
Proof. vm_compute. reflexivity. Qed.

(** For a non-empty buffer and a parser bound to a grammar, [parse_string]
    returns a tree whose root node is not null. *)
Lemma parse_string_nonempty_root (p : parser.t) (buffer : string_view)
    (E : engine) (a : nat) (l : TSLanguage) :
  sv_size buffer <> 0 ->
  unique_ptr.get (parser.impl p) = Some a ->
  eng_parsers E !! a = Some (Some l) ->
  exists t E' r, parser.parse_string p buffer E = Ret (t, E') /\
    tree.get_root_node t E' = Ret r /\
    node.is_null r = false /\ node_valid (node.impl r).
Proof.
  intros Hne Hp Hl.
  unfold parser.parse_string, first_char_and_length.
  rewrite (front_defined buffer Hne). simpl.
  unfold ts_parser_parse_string. rewrite Hp. simpl. rewrite Hl. simpl.
  eexists _, _, _. split; [reflexivity|].
  unfold tree.get_root_node, ts_tree_root_node, live_tree. simpl.
  rewrite lookup_insert_eq. simpl.
  split; [reflexivity|]. split; [reflexivity|].
  unfold node_valid, node_subtree. simpl. eauto.
Qed.

(** The scenario of the grammar [(a (b) (c))]: the root has symbol "a" and
    two named children "b" and "c"; a cursor seeded at the root reaches the
    last child by one descent and two sibling steps, and the node it shows
    has the identity of the node reached by [get_child]. *)
Example abc_scenario :
  sv_chars <$> node.get_type (abc_node []) = Ret (list_ascii_of_string "a") /\
  node.get_num_children (abc_node []) = 3 /\
  node.get_num_named_children (abc_node []) = 2 /\
  sv_chars <$> node.get_type (node.get_named_child (abc_node []) 0)
    = Ret (list_ascii_of_string "b") /\
  sv_chars <$> node.get_type (node.get_named_child (abc_node []) 1)
    = Ret (list_ascii_of_string "c") /\
  (E ← navigate_all [GotoFirstChild; GotoNextSibling; GotoNextSibling]
                    (fst abc_cursor) (snd abc_cursor);
   node.get_id <$> cursor.get_current_node (fst abc_cursor) E)
    = Ret (node.get_id (node.get_child (abc_node []) 2)).
Proof. repeat split; vm_compute; reflexivity. Qed.

(** Navigation on a copy moves the copy, and only the copy. *)
Example copy_moves_alone :
  ('(c', E1) ← cursor.copy (fst abc_cursor) (snd abc_cursor);
   E2 ← navigate_all [GotoFirstChild] c' E1;
   here ← cursor.get_current_node c' E2;
   there ← cursor.get_current_node (fst abc_cursor) E2;
   Ret (node.get_id here, node.get_id there))
  = Ret (node.get_id (abc_node [0%nat]), node.get_id (abc_node [])).
Proof. vm_compute. reflexivity. Qed.


(** * Further properties of the wrappers *)

(** ** Strings and views *)

Lemma length_list_ascii_of_string (s : string) :
  length (list_ascii_of_string s) = String.length s.
Proof. induction s as [|a s IH]; simpl; [reflexivity | by rewrite IH]. Qed.

(** Reading a C string over its length gives back its characters. *)
Lemma read_chars_c_str (s : string) :
  read_chars (c_str s) (Z.of_nat (String.length s)) = list_ascii_of_string s.
Proof.
  unfold read_chars. apply list_eq. intros i. rewrite list_lookup_fmap.
  destruct (decide (i < String.length s)%nat) as [Hi|Hi].
  - rewrite lookup_seqZ_lt by lia. simpl.
    replace (Z.to_nat (0 + (0 + Z.of_nat i))) with i by lia.
    rewrite nth_lookup.
    destruct (list_ascii_of_string s !! i) as [a|] eqn:Ha; [reflexivity|].
    apply lookup_ge_None in Ha. rewrite length_list_ascii_of_string in Ha. lia.
  - rewrite lookup_seqZ_ge by lia. simpl. symmetry.
    apply lookup_ge_None. rewrite length_list_ascii_of_string. lia.
Qed.

Lemma sv_chars_of_string (s : string) :
  sv_chars (sv_of_string s) = list_ascii_of_string s.
Proof. apply read_chars_c_str. Qed.

(** X1: whatever the node and the buffer, a view returned by
    [get_source_range] lies inside the caller's buffer: it addresses the same
    array, starts at or after the buffer's first character and ends at or
    before its last. *)
Theorem get_source_range_within_buffer (n : node.t) (source v : string_view) :
  sv_valid source ->
  node.get_source_range n source = Ret v ->
  sv_valid v /\
  ptr_obj (sv_data v) = ptr_obj (sv_data source) /\
  ptr_off (sv_data source) <= ptr_off (sv_data v) /\
  ptr_off (sv_data v) + sv_size v <= ptr_off (sv_data source) + sv_size source.
Proof.
  intros [(Hoff & Hsize & Hfit) Hmax].
  pose proof (byte_range_start_nonneg n) as Hstart.
  unfold node.get_source_range, substr.
  generalize dependent (start (node.get_byte_range n)). intros s Hs.
  generalize (end_ (node.get_byte_range n)). intros e.
  pose proof (to_uint32_range (e - s)) as Hcount.
  destruct (decide (sv_size source < s)) as [Hlt|Hge]; [discriminate|].
  intros H. injection H as <-. unfold sv_valid, ptr_in_bounds. simpl.
  repeat split; try reflexivity; lia.
Qed.

Lemma get_source_range_within_buffer_witness :
  sv_valid (sv_of_string "abcdefg") /\
  exists v, node.get_source_range (abc_node [2%nat]) (sv_of_string "abcdefg") = Ret v /\
    sv_valid v /\ sv_chars v = list_ascii_of_string "fg".
Proof.
  assert (Hv : sv_valid (sv_of_string "abcdefg")).
  { unfold sv_valid, ptr_in_bounds, size_t_max. simpl. lia. }
  split; [exact Hv|]. eexists. split; [reflexivity|]. split; [|reflexivity].
  eapply (get_source_range_within_buffer (abc_node [2%nat]) (sv_of_string "abcdefg"));
    [exact Hv | reflexivity].
Defined.

(** The child of a node at an index where its storage has a child. *)
Lemma ts_node_child_some (n : TSNode) (s c : Subtree) (k : nat) :
  node_subtree n = Some s -> st_children s !! k = Some c ->
  exists p, ts_id n = Some p /\
    ts_node_child n (Z.of_nat k)
      = {| ts_tree := ts_tree n; ts_id := Some (p ++ [k]) |} /\
    node_subtree (ts_node_child n (Z.of_nat k)) = Some c.
Proof.
  intros Hs Hc. unfold ts_node_child. rewrite Hs.
  unfold node_subtree in Hs.
  destruct (ts_tree n) as [T|] eqn:HT; [|discriminate]. simpl in Hs.
  destruct (ts_id n) as [p|] eqn:Hp; [|discriminate]. simpl in Hs.
  exists p. split; [reflexivity|].
  rewrite nth_child_of_nat, Hc, Nat2Z.id. split; [reflexivity|].
  unfold node_subtree. simpl. rewrite subtree_at_snoc, Hs. exact Hc.
Qed.

(** ** Symbols and fields by name *)

(** X2: for every name in the grammar's symbol table, looking the name up
    with [get_symbol_for_name] gives a symbol code below [get_num_symbols]
    whose [get_symbol_name] reads back the characters of the name.  The name
    is passed as any non-empty view shorter than 2^32 characters. *)
Theorem symbol_name_round_trip (l : language.t) (name : string_view)
    (s : string) (isNamed : bool) :
  0 < sv_size name < 2 ^ 32 ->
  sv_chars name = list_ascii_of_string s ->
  (s, isNamed) ∈ lang_symbols (language.impl l) ->
  exists k v, language.get_symbol_for_name l name isNamed = Ret k /\
    0 <= k < language.get_num_symbols l /\
    language.get_symbol_name l k = Ret v /\
    sv_chars v = sv_chars name.
Proof.
  intros Hsize Hchars Hin.
  unfold language.get_symbol_for_name, first_char_and_length.
  rewrite front_defined by lia. simpl.
  rewrite to_uint32_small by lia.
  unfold ts_language_symbol_for_name.
  match goal with
  | |- context [list_find ?P ?xs] =>
      destruct (list_find_elem_of P xs (s, isNamed) Hin) as [[k e] Hfind]
  end.
  { simpl. split; [symmetry; exact Hchars | reflexivity]. }
  rewrite Hfind. apply list_find_Some in Hfind as (Hk & [Hname _] & _).
  exists (Z.of_nat k), (sv_of_string (fst e)). split; [reflexivity|].
  split.
  { unfold language.get_num_symbols, ts_language_symbol_count.
    apply lookup_lt_Some in Hk. lia. }
  unfold language.get_symbol_name, ts_language_symbol_name.
  destruct (decide (0 <= Z.of_nat k)); [|lia].
  rewrite Nat2Z.id, Hk. simpl. split; [reflexivity|].
  rewrite sv_chars_of_string. exact Hname.
Qed.

Lemma symbol_name_round_trip_witness :
  exists k v, language.get_symbol_for_name (language.mk abc_language)
                (sv_of_string "c") true = Ret k /\
    0 <= k < language.get_num_symbols (language.mk abc_language) /\
    language.get_symbol_name (language.mk abc_language) k = Ret v /\
    sv_chars v = sv_chars (sv_of_string "c").
Proof.
  apply (symbol_name_round_trip (language.mk abc_language) (sv_of_string "c")
           "c" true).
  - simpl. lia.
  - reflexivity.
  - apply list_elem_of_lookup. exists 3%nat. reflexivity.
Defined.

(** X3: when [get_field_name_for_child(i)] returns a name, handing that name
    to [get_child_by_field_name] returns a child that is not null, sits at an
    index no greater than [i] (the first child carrying the field), and whose
    own field name reads the same. *)
Theorem field_name_round_trip (n : node.t) (i : Z) (v : string_view) :
  node.get_field_name_for_child n i = Ret v ->
  0 < sv_size v < 2 ^ 32 ->
  exists k, 0 <= k <= i /\
    node.get_child_by_field_name n v = Ret (node.get_child n k) /\
    node.is_null (node.get_child n k) = false /\
    sv_chars <$> node.get_field_name_for_child n k = Ret (sv_chars v).
Proof.
  unfold node.get_field_name_for_child, ts_node_field_name_for_child.
  destruct (node_subtree (node.impl n)) as [s|] eqn:Hs; [|discriminate].
  simpl. unfold nth_child at 1.
  destruct (decide (0 <= i)) as [Hi|]; [|discriminate].
  destruct (st_children s !! Z.to_nat i) as [c|] eqn:Hc; [|discriminate].
  simpl. destruct (st_field c) as [f|] eqn:Hf; [|discriminate].
  simpl. intros Hv Hsize. injection Hv as <-.
  unfold node.get_child_by_field_name, first_char_and_length.
  rewrite front_defined by lia. simpl.
  rewrite to_uint32_small by exact (conj (Z.lt_le_incl _ _ (proj1 Hsize)) (proj2 Hsize)).
  unfold ts_node_child_by_field_name. rewrite Hs, read_chars_c_str.
  match goal with
  | |- context [list_find ?P ?xs] =>
      destruct (list_find_elem_of P xs c) as [[k c'] Hfind]
  end.
  { apply list_elem_of_lookup. eauto. }
  { rewrite Hf. reflexivity. }
  rewrite Hfind. apply list_find_Some in Hfind as (Hk & Hname & Hfirst).
  assert (Hle : (k <= Z.to_nat i)%nat).
  { destruct (decide (k <= Z.to_nat i)%nat) as [|Hgt]; [assumption|].
    destruct (Hfirst (Z.to_nat i) c Hc); [lia|]. rewrite Hf. reflexivity. }
  destruct (ts_node_child_some (node.impl n) s c' k Hs Hk) as (p & Hp & Hchild & _).
  exists (Z.of_nat k). split; [lia|]. split; [reflexivity|].
  unfold node.get_child, node.is_null. cbn [node.impl]. rewrite Hchild.
  split; [reflexivity|].
  rewrite nth_child_of_nat, Hk. simpl.
  destruct (st_field c') as [f'|]; [|discriminate]. simpl in Hname |- *.
  injection Hname as Hname. rewrite !sv_chars_of_string. by rewrite Hname.
Qed.

Lemma field_name_round_trip_witness :
  exists v, node.get_field_name_for_child (abc_node []) 0 = Ret v /\
    0 < sv_size v < 2 ^ 32 /\
    exists k, 0 <= k <= 0 /\
      node.get_child_by_field_name (abc_node []) v
        = Ret (node.get_child (abc_node []) k) /\
      node.is_null (node.get_child (abc_node []) k) = false /\
      sv_chars <$> node.get_field_name_for_child (abc_node []) k = Ret (sv_chars v).
Proof.
  eexists. split; [reflexivity|].
  assert (Hsize : 0 < sv_size (sv_of_string "left") < 2 ^ 32) by (simpl; lia).
  split; [exact Hsize|].
  exact (field_name_round_trip (abc_node []) 0 (sv_of_string "left") eq_refl Hsize).
Defined.

(** ** Children, parents and siblings *)

Lemma node_subtree_id (n : TSNode) (s : Subtree) :
  node_subtree n = Some s ->
  exists T p, ts_tree n = Some T /\ ts_id n = Some p /\
    subtree_at (tree_root T) p = Some s.
Proof.
  unfold node_subtree.
  destruct (ts_tree n) as [T|]; [|discriminate]. simpl.
  destruct (ts_id n) as [p|]; [|discriminate]. simpl. eauto.
Qed.

(** X4: [get_child(i)] is the null node exactly when [i] is not below
    [get_num_children()]; no index makes the call fail. *)
Theorem get_child_null_iff (n : node.t) (i : Z) :
  node.is_null (node.get_child n i) = true <->
  ~ (0 <= i < node.get_num_children n).
Proof.
  unfold node.is_null, node.get_child, node.get_num_children,
    ts_node_child, ts_node_child_count. cbn [node.impl].
  destruct (node_subtree (node.impl n)) as [s|] eqn:Hs; simpl.
  - destruct (node_subtree_id _ _ Hs) as (T & p & _ & Hp & _). rewrite Hp.
    unfold nth_child. destruct (decide (0 <= i)) as [Hi|Hi].
    + destruct (st_children s !! Z.to_nat i) as [c|] eqn:Hc; simpl.
      * apply lookup_lt_Some in Hc. split; [discriminate | lia].
      * apply lookup_ge_None in Hc. split; [lia | reflexivity].
    + simpl. split; [lia | reflexivity].
  - split; [lia | reflexivity].
Qed.

(** X5: for every node of a tree and every index below its child count, the
    parent of the child at that index is the node itself. *)
Theorem child_parent_round_trip (n : node.t) (i : Z) :
  node_valid (node.impl n) ->
  0 <= i < node.get_num_children n ->
  node.get_parent (node.get_child n i) = n.
Proof.
  destruct n as [n]. unfold node_valid, node.get_num_children,
    ts_node_child_count. cbn [node.impl].
  intros [s Hs] Hi. rewrite Hs in Hi. simpl in Hi.
  destruct (lookup_lt_is_Some_2 (st_children s) (Z.to_nat i)) as [c Hc]; [lia|].
  destruct (ts_node_child_some n s c (Z.to_nat i) Hs Hc) as (p & Hp & Hchild & _).
  rewrite Z2Nat.id in Hchild by lia.
  unfold node.get_parent, node.get_child. cbn [node.impl]. rewrite Hchild.
  unfold ts_node_parent. cbn [ts_id ts_tree].
  destruct (p ++ [Z.to_nat i]) as [|k0 rest] eqn:Heq.
  { destruct p; discriminate. }
  rewrite <- Heq, removelast_last. f_equal.
  destruct n as [tr id]. simpl in *. by rewrite Hp.
Qed.

Lemma child_parent_round_trip_witness :
  node_valid (node.impl (abc_node [])) /\
  0 <= 2 < node.get_num_children (abc_node []) /\
  node.get_parent (node.get_child (abc_node []) 2) = abc_node [].
Proof.
  assert (Hv : node_valid (node.impl (abc_node []))).
  { unfold node_valid. vm_compute. eexists. reflexivity. }
  assert (Hi : 0 <= 2 < node.get_num_children (abc_node [])).
  { vm_compute. split; [discriminate | reflexivity]. }
  split; [exact Hv|]. split; [exact Hi|].
  exact (child_parent_round_trip (abc_node []) 2 Hv Hi).
Defined.

(** X6: for every node of a tree that has a next sibling, the previous
    sibling of that next sibling is the node itself. *)
Theorem next_previous_sibling_round_trip (n : node.t) :
  node_valid (node.impl n) ->
  node.is_null (node.get_next_sibling n) = false ->
  node.get_previous_sibling (node.get_next_sibling n) = n.
Proof.
  destruct n as [[tr id]]. unfold node_valid. cbn [node.impl].
  intros [s Hs] Hnext.
  destruct (node_subtree_id _ _ Hs) as (T & p & HT & Hp & Hat).
  simpl in HT, Hp. subst tr id.
  unfold node.get_next_sibling, node.get_previous_sibling, node.is_null in *.
  cbn [node.impl] in *.
  unfold ts_node_next_sibling in *. cbn [ts_id mbind option_bind] in *.
  destruct p as [|k0 rest]; [discriminate Hnext|].
  destruct (parent_holds_child T (k0 :: rest) s) as (sq & k & Hpk & Hq & Hk);
    [discriminate | exact Hat |].
  set (q := removelast (k0 :: rest)) in *.
  rewrite Hpk in Hnext |- *. rewrite last_snoc in Hnext |- *.
  assert (Hparent : ts_node_parent {| ts_tree := Some T; ts_id := Some (q ++ [k]) |}
                    = {| ts_tree := Some T; ts_id := Some q |}).
  { unfold ts_node_parent. cbn [ts_id ts_tree].
    destruct (q ++ [k]) as [|k1 r1] eqn:Heq; [destruct q; discriminate|].
    by rewrite <- Heq, removelast_last. }
  rewrite Hparent in Hnext |- *.
  assert (Hsq : node_subtree {| ts_tree := Some T; ts_id := Some q |} = Some sq)
    by exact Hq.
  replace (Z.of_nat k + 1) with (Z.of_nat (S k)) in Hnext |- * by lia.
  destruct (st_children sq !! S k) as [c'|] eqn:Hc'.
  - destruct (ts_node_child_some _ sq c' (S k) Hsq Hc') as (q' & Hq' & Hchild & _).
    simpl in Hq'. injection Hq' as <-. rewrite Hchild.
    unfold ts_node_prev_sibling. cbn [ts_id mbind option_bind].
    rewrite last_snoc, <- Hchild.
    assert (Hparent' : ts_node_parent (ts_node_child
               {| ts_tree := Some T; ts_id := Some q |} (Z.of_nat (S k)))
             = {| ts_tree := Some T; ts_id := Some q |}).
    { rewrite Hchild. unfold ts_node_parent. cbn [ts_id ts_tree].
      destruct (q ++ [S k]) as [|k1 r1] eqn:Heq; [destruct q; discriminate|].
      by rewrite <- Heq, removelast_last. }
    rewrite Hparent'.
    replace (Z.of_nat (S k) - 1) with (Z.of_nat k) by lia.
    destruct (ts_node_child_some _ sq s k Hsq Hk) as (q' & Hq' & Hchild' & _).
    simpl in Hq'. injection Hq' as <-. rewrite Hchild'. reflexivity.
  - exfalso. unfold ts_node_child in Hnext. rewrite Hsq in Hnext.
    cbn [ts_id] in Hnext. rewrite nth_child_of_nat, Hc' in Hnext.
    discriminate Hnext.
Qed.

Lemma next_previous_sibling_round_trip_witness :
  node_valid (node.impl (abc_node [0%nat])) /\
  node.is_null (node.get_next_sibling (abc_node [0%nat])) = false /\
  node.get_previous_sibling (node.get_next_sibling (abc_node [0%nat]))
    = abc_node [0%nat].
Proof.
  assert (Hv : node_valid (node.impl (abc_node [0%nat]))).
  { unfold node_valid. vm_compute. eexists. reflexivity. }
  split; [exact Hv|]. split; [reflexivity|].
  exact (next_previous_sibling_round_trip (abc_node [0%nat]) Hv eq_refl).
Defined.

(** ** Named children *)

Lemma named_positions_lookup (cs : list Subtree) (i k : nat) :
  named_positions cs !! i = Some k ->
  exists c, cs !! k = Some c /\ st_named c = true.
Proof.
  intros Hk. apply list_elem_of_lookup_2 in Hk.
  unfold named_positions in Hk. apply list_elem_of_filter in Hk as [Hnamed _].
  destruct (cs !! k) as [c|]; [|discriminate]. eauto.
Qed.

Lemma named_child_in_range (n : node.t) (i : Z) :
  0 <= i < node.get_num_named_children n ->
  exists k, 0 <= k < node.get_num_children n /\
    node.get_named_child n i = node.get_child n k /\
    node.is_null (node.get_child n k) = false /\
    node.is_named (node.get_child n k) = true.
Proof.
  unfold node.get_num_named_children, node.get_num_children,
    node.get_named_child, node.get_child, node.is_null, node.is_named,
    ts_node_named_child_count, ts_node_child_count, ts_node_named_child,
    ts_node_is_named, ts_node_is_null.
  cbn [node.impl].
  destruct (node_subtree (node.impl n)) as [s|] eqn:Hs; simpl; [|lia].
  intros Hi. destruct (decide (0 <= i)); [|lia].
  destruct (lookup_lt_is_Some_2 (named_positions (st_children s)) (Z.to_nat i))
    as [k Hk]; [lia|].
  rewrite Hk.
  destruct (named_positions_lookup _ _ _ Hk) as (c & Hc & Hnamed).
  destruct (ts_node_child_some _ s c k Hs Hc) as (p & Hp & Hchild & Hsub).
  exists (Z.of_nat k). split; [apply lookup_lt_Some in Hc; lia|].
  split; [reflexivity|]. rewrite Hsub. simpl. rewrite Hchild. simpl.
  split; [reflexivity | exact Hnamed].
Qed.

(** X7: for every index below [get_num_named_children()],
    [get_named_child(i)] is one of the node's children, is not null and is
    named. *)
Theorem named_child_is_a_named_child (n : node.t) (i : Z) :
  0 <= i < node.get_num_named_children n ->
  exists k, 0 <= k < node.get_num_children n /\
    node.get_named_child n i = node.get_child n k /\
    node.is_null (node.get_named_child n i) = false /\
    node.is_named (node.get_named_child n i) = true.
Proof.
  intros Hi. destruct (named_child_in_range n i Hi) as (k & Hk & Heq & Hnull & Hnamed).
  exists k. rewrite Heq. auto.
Qed.

Lemma named_child_is_a_named_child_witness :
  0 <= 1 < node.get_num_named_children (abc_node []) /\
  exists k, 0 <= k < node.get_num_children (abc_node []) /\
    node.get_named_child (abc_node []) 1 = node.get_child (abc_node []) k /\
    node.is_null (node.get_named_child (abc_node []) 1) = false /\
    node.is_named (node.get_named_child (abc_node []) 1) = true.
Proof.
  assert (Hi : 0 <= 1 < node.get_num_named_children (abc_node [])).
  { vm_compute. split; [discriminate | reflexivity]. }
  split; [exact Hi|].
  exact (named_child_is_a_named_child (abc_node []) 1 Hi).
Defined.

(** X8: [get_named_child(i)] is the null node exactly when [i] is not below
    [get_num_named_children()]. *)
Theorem get_named_child_null_iff (n : node.t) (i : Z) :
  node.is_null (node.get_named_child n i) = true <->
  ~ (0 <= i < node.get_num_named_children n).
Proof.
  split.
  - intros Hnull Hi.
    destruct (named_child_in_range n i Hi) as (k & _ & Heq & Hnot & _).
    rewrite Heq in Hnull. congruence.
  - unfold node.get_num_named_children, node.get_named_child, node.is_null,
      ts_node_named_child_count, ts_node_named_child.
    cbn [node.impl].
    destruct (node_subtree (node.impl n)) as [s|]; simpl; [|reflexivity].
    intros Hi. destruct (decide (0 <= i)); [|reflexivity].
    destruct (named_positions (st_children s) !! Z.to_nat i) as [k|] eqn:Hk;
      [|reflexivity].
    apply lookup_lt_Some in Hk. lia.
Qed.

(** ** Errors *)

Lemma subtree_has_error_child (s c : Subtree) (k : nat) :
  st_children s !! k = Some c ->
  subtree_has_error c = true -> subtree_has_error s = true.
Proof.
  destruct s as [sym nm ms ex er sb eb sp ep f cs]. simpl. intros Hc Herr.
  apply orb_true_iff. right. apply existsb_exists. exists c.
  split; [|exact Herr]. apply list_elem_of_In, list_elem_of_lookup. eauto.
Qed.

Lemma subtree_has_error_at (s s' : Subtree) (p : list nat) :
  subtree_at s p = Some s' ->
  subtree_has_error s' = true -> subtree_has_error s = true.
Proof.
  revert s. induction p as [|k p IH]; intros s; simpl.
  - intros H. injection H as <-. auto.
  - destruct (st_children s !! k) as [c|] eqn:Hc; simpl; [|discriminate].
    intros Hat Herr. apply (subtree_has_error_child s c k Hc). by apply IH.
Qed.

Lemma subtree_missing_has_error (s : Subtree) :
  st_missing s = true -> subtree_has_error s = true.
Proof.
  destruct s as [sym nm ms ex er sb eb sp ep f cs]. simpl. intros ->.
  rewrite orb_true_r. reflexivity.
Qed.

(** X9: the error flag propagates upwards: for every node of a tree that has
    a parent, if the node is missing or has an error then its parent has an
    error. *)
Theorem has_error_reaches_parent (n : node.t) :
  node_valid (node.impl n) ->
  node.is_null (node.get_parent n) = false ->
  node.is_missing n = true \/ node.has_error n = true ->
  node.has_error (node.get_parent n) = true.
Proof.
  destruct n as [[tr id]]. unfold node_valid. cbn [node.impl].
  intros [s Hs] Hparent Herr.
  destruct (node_subtree_id _ _ Hs) as (T & p & HT & Hp & Hat).
  simpl in HT, Hp. subst tr id.
  unfold node.is_missing, node.has_error, node.get_parent, node.is_null,
    ts_node_is_missing, ts_node_has_error in *.
  cbn [node.impl] in *. rewrite Hs in Herr. simpl in Herr.
  assert (Hserr : subtree_has_error s = true).
  { destruct Herr as [Hm|He]; [by apply subtree_missing_has_error | exact He]. }
  unfold ts_node_parent in *. cbn [ts_id ts_tree] in *.
  destruct p as [|k0 rest]; [discriminate Hparent|].
  destruct (parent_holds_child T (k0 :: rest) s) as (sq & k & _ & Hq & Hk);
    [discriminate | exact Hat |].
  assert (Hsq : node_subtree {| ts_tree := Some T;
                                ts_id := Some (removelast (k0 :: rest)) |}
                = Some sq) by exact Hq.
  rewrite Hsq. simpl.
  by apply (subtree_has_error_child sq s k).
Qed.

Lemma has_error_reaches_parent_witness :
  let T := {| tree_root :=
                MkSubtree 1 true false false false 0 4 point_zero point_zero None
                  [MkSubtree 2 true true false false 4 4 point_zero point_zero
                             None []];
              tree_language := abc_language |} in
  let n := node.mk {| ts_tree := Some T; ts_id := Some [0%nat] |} in
  node.is_missing n = true /\ node.has_error (node.get_parent n) = true.
Proof.
  intros T n. split; [reflexivity|].
  apply (has_error_reaches_parent n).
  - unfold node_valid. vm_compute. eexists. reflexivity.
  - reflexivity.
  - left. reflexivity.
Defined.

(** X10: if any node of a tree is missing or has an error, then
    [tree.has_error()] is true. *)
Theorem tree_has_error_of_any_node (t : tree.t) (E : engine) (r n : node.t) :
  tree.get_root_node t E = Ret r ->
  ts_tree (node.impl n) = ts_tree (node.impl r) ->
  node_valid (node.impl n) ->
  node.is_missing n = true \/ node.has_error n = true ->
  tree.has_error t E = Ret true.
Proof.
  intros Hroot Htree [s Hs] Herr.
  unfold tree.has_error. rewrite Hroot. simpl. f_equal.
  unfold tree.get_root_node, ts_tree_root_node in Hroot.
  destruct (live_tree (unique_ptr.get (tree.impl t)) E) as [T| |];
    try discriminate.
  simpl in Hroot. injection Hroot as <-.
  destruct (node_subtree_id _ _ Hs) as (T' & p & HT & Hp & Hat).
  simpl in Htree. rewrite HT in Htree. injection Htree as ->.
  unfold node.is_missing, node.has_error, ts_node_is_missing,
    ts_node_has_error in *.
  rewrite Hs in Herr. simpl in Herr.
  unfold node_subtree. simpl.
  apply (subtree_has_error_at _ s p Hat).
  destruct Herr as [Hm|He]; [by apply subtree_missing_has_error | exact He].
Qed.

Lemma tree_has_error_of_any_node_witness :
  let T := {| tree_root :=
                MkSubtree 1 true false false false 0 4 point_zero point_zero None
                  [MkSubtree 2 true true false false 4 4 point_zero point_zero
                             None []];
              tree_language := abc_language |} in
  let E := set_trees (insert 0%nat {| cell_tree := T; cell_deletes := 0 |})
                     engine_empty in
  let n := node.mk {| ts_tree := Some T; ts_id := Some [0%nat] |} in
  node.is_missing n = true /\ tree.has_error (tree.ctor (Some 0%nat)) E = Ret true.
Proof.
  intros T E n. split; [reflexivity|].
  apply (tree_has_error_of_any_node (tree.ctor (Some 0%nat)) E
           (node.mk {| ts_tree := Some T; ts_id := Some [] |}) n).
  - vm_compute. reflexivity.
  - reflexivity.
  - unfold node_valid. vm_compute. eexists. reflexivity.
  - left. reflexivity.
Defined.

(** ** Creating, moving and destroying cursors *)

Lemma fresh_cursor_unallocated (E : engine) :
  eng_cursors E !! fresh (dom (eng_cursors E)) = None.
Proof. apply not_elem_of_dom, is_fresh. Qed.

Lemma cursor_stack_at (a : nat) (st : list TSNode) (E : engine) :
  cursor_stack {| tc_id := a |} (set_cursors (insert a st) E) = Some st.
Proof. apply (cursor_stack_insert_eq {| tc_id := a |}). Qed.

Lemma set_cursors_delete_insert (E : engine) (a : nat) (st : list TSNode) :
  eng_cursors E !! a = None ->
  set_cursors (delete a) (set_cursors (insert a st) E) = E.
Proof.
  intros Ha. destruct E as [tr ps cs]. unfold set_cursors. simpl in *.
  f_equal. by apply delete_insert_id.
Qed.

(** X11: a cursor obtained from [get_cursor()] shows the seeding node, cannot
    move to a parent, and its creation leaves the current node of every
    existing cursor as it was. *)
Theorem seeded_cursor_starts_at_node (n : node.t) (E : engine) :
  let c := fst (get_cursor n E) in
  let E1 := snd (get_cursor n E) in
  cursor.get_current_node c E1 = Ret n /\
  cursor.goto_parent c E1 = Ret (false, E1) /\
  forall d cur, cursor.get_current_node d E = Ret cur ->
                cursor.get_current_node d E1 = Ret cur.
Proof.
  unfold get_cursor, cursor.ctor, ts_tree_cursor_new. simpl.
  set (a := fresh (dom (eng_cursors E))).
  split; [|split].
  - apply current_node_stack. exists [].
    apply (cursor_stack_insert_eq {| tc_id := a |}).
  - unfold cursor.goto_parent, ts_tree_cursor_goto_parent. cbn [cursor.impl].
    rewrite cursor_stack_at. reflexivity.
  - intros d cur Hd. apply current_node_stack in Hd as [rest Hst].
    apply current_node_stack. exists rest.
    rewrite (cursor_stack_insert_ne {| tc_id := a |}); [exact Hst|].
    simpl. intros Heq. unfold cursor_stack in Hst. rewrite <- Heq in Hst.
    unfold a in Hst. rewrite fresh_cursor_unallocated in Hst. discriminate.
Qed.

(** X12: destroying a cursor right after [get_cursor()] created it gives back
    the engine state from before the creation: the wrapper releases all the
    engine-side state it acquired. *)
Theorem cursor_create_destroy (n : node.t) (E : engine) :
  cursor.dtor (fst (get_cursor n E)) (snd (get_cursor n E)) = Ret E.
Proof.
  unfold get_cursor, cursor.ctor, ts_tree_cursor_new. cbn [fst snd].
  unfold cursor.dtor, ts_tree_cursor_delete. cbn [cursor.impl].
  rewrite cursor_stack_at. cbn [tc_id]. f_equal.
  apply set_cursors_delete_insert, fresh_cursor_unallocated.
Qed.

(** X13: destroying the cursor that [copy()] returned gives back the engine
    state from before the copy, the original cursor included. *)
Theorem cursor_copy_destroy (c c' : cursor.t) (E E1 : engine) :
  cursor.copy c E = Ret (c', E1) ->
  cursor.dtor c' E1 = Ret E.
Proof.
  unfold cursor.copy, cursor.ctor_copy, ts_tree_cursor_copy.
  destruct (cursor_stack (cursor.impl c) E) as [st|]; [|discriminate].
  simpl. intros H. injection H as <- <-.
  unfold cursor.dtor, ts_tree_cursor_delete. cbn [cursor.impl].
  rewrite cursor_stack_at. cbn [tc_id]. f_equal.
  apply set_cursors_delete_insert, fresh_cursor_unallocated.
Qed.

Lemma cursor_copy_destroy_witness :
  exists c' E1,
    cursor.copy (fst abc_cursor) (snd abc_cursor) = Ret (c', E1) /\
    cursor.dtor c' E1 = Ret (snd abc_cursor).
Proof.
  eexists _, _. split; [reflexivity|].
  apply (cursor_copy_destroy (fst abc_cursor)). reflexivity.
Defined.

(** X14: a successful [goto_first_child()] is undone by [goto_parent()]: the
    call returns true and the engine state, and with it the current node, is
    what it was before the descent. *)
Theorem first_child_then_parent (c : cursor.t) (E E1 : engine) :
  cursor.goto_first_child c E = Ret (true, E1) ->
  cursor.goto_parent c E1 = Ret (true, E).
Proof.
  unfold cursor.goto_first_child, ts_tree_cursor_goto_first_child,
    cursor.goto_parent, ts_tree_cursor_goto_parent.
  destruct (cursor_stack (cursor.impl c) E) as [[|cur rest]|] eqn:Hst;
    try discriminate.
  destruct (ts_node_is_null (ts_node_child cur 0)); [discriminate|].
  intros H. injection H as <-.
  rewrite cursor_stack_insert_eq. f_equal. f_equal.
  destruct E as [tr ps cs]. unfold set_cursors, cursor_stack in *. simpl in *.
  f_equal. rewrite insert_insert_eq. by apply insert_id.
Qed.

Lemma first_child_then_parent_witness :
  exists E1,
    cursor.goto_first_child (fst abc_cursor) (snd abc_cursor) = Ret (true, E1) /\
    cursor.goto_parent (fst abc_cursor) E1 = Ret (true, snd abc_cursor).
Proof.
  eexists. split; [reflexivity|].
  apply (first_child_then_parent (fst abc_cursor) (snd abc_cursor)). reflexivity.
Defined.

Lemma log_cons_counts (s : navigation) (b : bool) (log : list (navigation * bool)) :
  ascents ((s, b) :: log) = (ascents [(s, b)] + ascents log)%nat /\
  descents ((s, b) :: log) = (descents [(s, b)] + descents log)%nat.
Proof. destruct s, b; simpl; auto. Qed.

(** One navigation call changes the height of the position stack by the
    descent or ascent it reports. *)
Lemma navigate_height (s : navigation) (c : cursor.t) (E : engine)
    (x : TSNode) (xs : list TSNode) :
  cursor_stack (cursor.impl c) E = Some (x :: xs) ->
  exists b E1 y ys, navigate s c E = Ret (b, E1) /\
    cursor_stack (cursor.impl c) E1 = Some (y :: ys) /\
    (length (y :: ys) + ascents [(s, b)] = length (x :: xs) + descents [(s, b)])%nat.
Proof.
  intros Hst.
  destruct s; unfold navigate, cursor.goto_first_child, cursor.goto_next_sibling,
    cursor.goto_parent, ts_tree_cursor_goto_first_child,
    ts_tree_cursor_goto_next_sibling, ts_tree_cursor_goto_parent; rewrite Hst.
  - destruct (ts_node_is_null (ts_node_child x 0)).
    + exists false, E, x, xs. simpl. auto.
    + do 4 eexists. split; [reflexivity|]. split;
        [apply cursor_stack_insert_eq | simpl; lia].
  - destruct (ts_node_is_null (ts_node_next_sibling x)).
    + exists false, E, x, xs. simpl. auto.
    + do 4 eexists. split; [reflexivity|]. split;
        [apply cursor_stack_insert_eq | simpl; lia].
  - destruct xs as [|parent rest].
    + exists false, E, x, []. simpl. auto.
    + do 4 eexists. split; [reflexivity|]. split;
        [apply cursor_stack_insert_eq | simpl; lia].
Qed.

Lemma navigate_log_height (steps : list navigation) (c : cursor.t) (E : engine)
    (x : TSNode) (xs : list TSNode) :
  cursor_stack (cursor.impl c) E = Some (x :: xs) ->
  exists log E2 y ys, navigate_log steps c E = Ret (log, E2) /\
    cursor_stack (cursor.impl c) E2 = Some (y :: ys) /\
    (length (y :: ys) + ascents log = length (x :: xs) + descents log)%nat.
Proof.
  revert E x xs. induction steps as [|s steps IH]; intros E x xs Hst.
  - exists [], E, x, xs. simpl. auto.
  - destruct (navigate_height s c E x xs Hst) as (b & E1 & y & ys & Hnav & Hst1 & Hh).
    destruct (IH E1 y ys Hst1) as (log & E2 & z & zs & Hlog & Hst2 & Hh2).
    exists ((s, b) :: log), E2, z, zs.
    split; [simpl; rewrite Hnav; simpl; rewrite Hlog; reflexivity|].
    split; [exact Hst2|].
    destruct (log_cons_counts s b log) as [-> ->]. lia.
Qed.

(** X15: from a position where [goto_parent()] returns false (the node the
    cursor was seeded or reset to), every sequence of navigation calls is
    defined, and the calls of [goto_parent()] that succeed are never more than
    the calls of [goto_first_child()] that succeed: the cursor does not rise
    above its starting level. *)
Theorem cursor_stays_below_start (c : cursor.t) (E : engine)
    (steps : list navigation) :
  cursor.goto_parent c E = Ret (false, E) ->
  exists log E2, navigate_log steps c E = Ret (log, E2) /\
    (ascents log <= descents log)%nat.
Proof.
  unfold cursor.goto_parent, ts_tree_cursor_goto_parent.
  destruct (cursor_stack (cursor.impl c) E) as [[|x [|parent rest]]|] eqn:Hst;
    try discriminate.
  intros _.
  destruct (navigate_log_height steps c E x [] Hst)
    as (log & E2 & y & ys & Hlog & _ & Hh).
  exists log, E2. split; [exact Hlog|]. simpl in Hh. lia.
Qed.

Lemma cursor_stays_below_start_witness :
  cursor.goto_parent (fst abc_cursor) (snd abc_cursor) = Ret (false, snd abc_cursor) /\
  exists log E2,
    navigate_log [GotoFirstChild; GotoParent; GotoParent; GotoNextSibling]
                 (fst abc_cursor) (snd abc_cursor) = Ret (log, E2) /\
    (ascents log <= descents log)%nat.
Proof.
  split; [reflexivity|].
  apply (cursor_stays_below_start (fst abc_cursor) (snd abc_cursor)). reflexivity.
Defined.

(** ** Parsers and the trees they return *)

(** X16: constructing a parser always succeeds, and destroying it right away
    gives back the engine state from before the construction. *)
Theorem parser_create_destroy (l : language.t) (E : engine) :
  exists p E1, parser.ctor l E = Ret (p, E1) /\ parser.dtor p E1 = Ret E.
Proof.
  unfold parser.ctor, ts_parser_new, ts_parser_set_language.
  cbn [eng_parsers set_parsers]. rewrite lookup_insert_eq.
  eexists _, _. split; [reflexivity|].
  unfold parser.dtor, unique_ptr.dtor, ts_parser_delete.
  cbn [parser.impl unique_ptr.get unique_ptr.get_deleter eng_parsers set_parsers].
  rewrite lookup_insert_eq. f_equal.
  destruct E as [tr ps cs]. unfold set_parsers. cbn [eng_trees eng_parsers eng_cursors].
  f_equal. rewrite !delete_insert_eq. apply delete_id, not_elem_of_dom, is_fresh.
Qed.

(** X17: a parser constructed for a grammar parses every non-empty buffer
    shorter than 2^32 characters: [parse_string] returns a tree whose
    [get_language()] is that grammar and whose root is the top of what the
    grammar makes of exactly the buffer's characters. *)
Theorem parse_with_new_parser (l : language.t) (buffer : string_view) (E : engine) :
  0 < sv_size buffer < 2 ^ 32 ->
  exists p E1 t E2,
    parser.ctor l E = Ret (p, E1) /\
    parser.parse_string p buffer E1 = Ret (t, E2) /\
    tree.get_language t E2 = Ret l /\
    tree.get_root_node t E2
      = Ret (node.mk {| ts_tree := Some
                          {| tree_root := lang_parse (language.impl l) (sv_chars buffer);
                             tree_language := language.impl l |};
                        ts_id := Some [] |}).
Proof.
  intros Hsize.
  unfold parser.ctor, ts_parser_new, ts_parser_set_language.
  cbn [eng_parsers set_parsers]. rewrite lookup_insert_eq.
  eexists _, _, _, _. split; [reflexivity|].
  unfold parser.parse_string, first_char_and_length.
  rewrite front_defined by lia. rewrite to_uint32_small by lia. simpl.
  unfold ts_parser_parse_string. simpl. rewrite lookup_insert_eq. simpl.
  split; [reflexivity|].
  unfold tree.get_language, tree.get_root_node, ts_tree_language,
    ts_tree_root_node, live_tree. simpl. rewrite lookup_insert_eq. simpl.
  split; [by destruct l | reflexivity].
Qed.

Lemma parse_with_new_parser_witness :
  0 < sv_size (sv_of_string "(bbb,ccc)") < 2 ^ 32 /\
  exists p E1 t E2,
    parser.ctor (language.mk abc_language) engine_empty = Ret (p, E1) /\
    parser.parse_string p (sv_of_string "(bbb,ccc)") E1 = Ret (t, E2) /\
    tree.get_language t E2 = Ret (language.mk abc_language) /\
    tree.get_root_node t E2
      = Ret (node.mk {| ts_tree := Some
                          {| tree_root := lang_parse abc_language
                                            (sv_chars (sv_of_string "(bbb,ccc)"));
                             tree_language := abc_language |};
                        ts_id := Some [] |}).
Proof.
  assert (Hsize : 0 < sv_size (sv_of_string "(bbb,ccc)") < 2 ^ 32) by (simpl; lia).
  split; [exact Hsize|].
  exact (parse_with_new_parser (language.mk abc_language)
           (sv_of_string "(bbb,ccc)") engine_empty Hsize).
Defined.

Lemma parse_string_allocates (p : parser.t) (buffer : string_view) (E E' : engine)
    (t : tree.t) :
  parser.parse_string p buffer E = Ret (t, E') ->
  exists a T, eng_trees E !! a = None /\ t = tree.ctor (Some a) /\
    E' = set_trees (insert a {| cell_tree := T; cell_deletes := 0 |}) E.
Proof.
  unfold parser.parse_string.
  destruct (first_char_and_length buffer) as [[str len]| |]; simpl;
    [|discriminate|discriminate].
  unfold ts_parser_parse_string.
  destruct (unique_ptr.get (parser.impl p) ≫= _) as [[l|]|]; simpl;
    try discriminate.
  intros H. injection H as <- <-.
  eexists _, _. split; [|split; reflexivity].
  apply not_elem_of_dom, is_fresh.
Qed.

(** X18: [parse_string] leaves what exists alone: a tree that could be read
    before the call reads the same after it and holds a handle different from
    the new tree's, and no cursor is touched. *)
Theorem parse_string_leaves_other_trees (p : parser.t) (buffer : string_view)
    (E E' : engine) (t t0 : tree.t) (r : node.t) :
  parser.parse_string p buffer E = Ret (t, E') ->
  tree.get_root_node t0 E = Ret r ->
  tree.get_root_node t0 E' = Ret r /\
  unique_ptr.get (tree.impl t0) <> unique_ptr.get (tree.impl t) /\
  eng_cursors E' = eng_cursors E.
Proof.
  intros Hparse Hroot.
  apply parse_string_allocates in Hparse as (a & T & Ha & -> & ->).
  unfold tree.get_root_node, ts_tree_root_node, live_tree in *.
  destruct (unique_ptr.get (tree.impl t0)) as [a0|]; [|discriminate].
  simpl in *.
  assert (Hne : a0 <> a).
  { intros ->. rewrite Ha in Hroot. discriminate. }
  rewrite lookup_insert_ne by congruence.
  split; [exact Hroot|]. split; [congruence | reflexivity].
Qed.

Lemma parse_string_leaves_other_trees_witness :
  let p := parser.mk (unique_ptr.mk (Some 0%nat) ts_parser_delete) in
  let E := set_trees (insert 0%nat {| cell_tree := abc_tree; cell_deletes := 0 |})
             (set_parsers (insert 0%nat (Some abc_language)) engine_empty) in
  let t0 := tree.ctor (Some 0%nat) in
  exists t E' r,
    parser.parse_string p (sv_of_string "(bbb,ccc)") E = Ret (t, E') /\
    tree.get_root_node t0 E = Ret r /\
    tree.get_root_node t0 E' = Ret r /\
    unique_ptr.get (tree.impl t0) <> unique_ptr.get (tree.impl t).
Proof.
  intros p E t0.
  destruct (parser.parse_string p (sv_of_string "(bbb,ccc)") E)
    as [[t E']| |] eqn:Hparse;
    [|vm_compute in Hparse; discriminate Hparse
     |vm_compute in Hparse; discriminate Hparse].
  destruct (tree.get_root_node t0 E) as [r| |] eqn:Hroot;
    [|vm_compute in Hroot; discriminate Hroot
     |vm_compute in Hroot; discriminate Hroot].
  exists t, E', r. split; [reflexivity|]. split; [reflexivity|].
  destruct (parse_string_leaves_other_trees p (sv_of_string "(bbb,ccc)")
              E E' t t0 r Hparse Hroot) as (H1 & H2 & _).
  split; [exact H1 | exact H2].
Defined.

(** ** Moving trees *)

(** X19: move construction hands the tree over: the new tree reads and is
    destroyed exactly as the source was, while the moved-from source holds a
    null handle, so that reading it is undefined and destroying it releases
    nothing. *)
Theorem move_ctor_hands_over (t : tree.t) (E : engine) :
  let t' := fst (tree.move_ctor t) in
  let t0 := snd (tree.move_ctor t) in
  tree.get_root_node t' E = tree.get_root_node t E /\
  tree.get_language t' E = tree.get_language t E /\
  tree.has_error t' E = tree.has_error t E /\
  tree.dtor t' E = tree.dtor t E /\
  tree.get_root_node t0 E = Undefined /\
  tree.get_language t0 E = Undefined /\
  tree.has_error t0 E = Undefined /\
  tree.dtor t0 E = Ret E.
Proof.
  destruct t as [[g d]]. simpl. repeat split; reflexivity.
Qed.

Lemma move_ctor_hands_over_witness :
  let E := set_trees (insert 0%nat {| cell_tree := abc_tree; cell_deletes := 0 |})
                     engine_empty in
  let t := tree.ctor (Some 0%nat) in
  tree.get_root_node (fst (tree.move_ctor t)) E = Ret (abc_node []) /\
  tree.get_root_node (snd (tree.move_ctor t)) E = Undefined /\
  tree.dtor (snd (tree.move_ctor t)) E = Ret E.
Proof.
  intros E t.
  destruct (move_ctor_hands_over t E)
    as (H1 & _ & _ & _ & H5 & _ & _ & H8).
  split; [rewrite H1; vm_compute; reflexivity|]. split; [exact H5 | exact H8].
Defined.

(** X20: moving a tree object into itself, [x = std::move(x)], changes
    nothing: the object keeps its handle and no storage is released. *)
Theorem self_move_assignment_is_no_op (σ : state) (x : string) :
  is_Some (vars σ !! x) ->
  exec (AssignMove x x) σ = Some σ.
Proof.
  intros [tx Hx]. simpl. rewrite Hx. simpl. rewrite lookup_insert_eq. simpl.
  f_equal. destruct σ as [V P E]. simpl in *. f_equal.
  rewrite insert_insert_eq.
  replace (tree.mk (unique_ptr.mk (unique_ptr.get (tree.impl tx))
                     (unique_ptr.get_deleter (tree.impl tx)))) with tx
    by (by destruct tx as [[? ?]]).
  by apply insert_id.
Qed.

Lemma self_move_assignment_is_no_op_witness :
  exists σ, program (language.mk abc_language)
                    [DeclParse "t" (sv_of_string "(b,c)")]%string = Some σ /\
    owns σ "t" 0 /\ exec (AssignMove "t" "t")%string σ = Some σ.
Proof.
  eexists. split; [vm_compute; reflexivity|].
  split; [eexists; split; vm_compute; reflexivity|].
  apply self_move_assignment_is_no_op. vm_compute. eexists. reflexivity.
Defined.

(** ** Client code: what can and what cannot go wrong *)

Lemma run_reaches_ownership (l : language.t) (prog : list stmt) (σ : state) :
  program l prog = Some σ -> ownership σ.
Proof.
  unfold program. intros Hprog.
  destruct (initial l) as [σ0|] eqn:Hinit; [|discriminate]. simpl in Hprog.
  eapply run_preserves_ownership; [|exact Hprog].
  by apply (initial_ownership l).
Qed.

(** X21: in every state that client code can reach, each tree object in scope
    either is moved-from (holds the null handle) or can be read: its root
    node is defined and not null.  No tree object in scope dangles. *)
Theorem trees_in_scope_are_readable (l : language.t) (prog : list stmt)
    (σ : state) (x : string) (t : tree.t) :
  program l prog = Some σ ->
  vars σ !! x = Some t ->
  unique_ptr.get (tree.impl t) = None \/
  exists r, tree.get_root_node t (eng σ) = Ret r /\ node.is_null r = false.
Proof.
  intros Hprog Hx. pose proof (run_reaches_ownership l prog σ Hprog) as Hinv.
  destruct (unique_ptr.get (tree.impl t)) as [a|] eqn:Ha; [right | left; reflexivity].
  assert (Hown : owns_in (vars σ) x a) by (exists t; auto).
  destruct (owned_is_live _ _ x a Hinv Hown) as (c & Hc & Hlive).
  unfold tree.get_root_node, ts_tree_root_node, live_tree. rewrite Ha. simpl.
  rewrite Hc. destruct (decide (cell_deletes c = 0%nat)); [|contradiction].
  simpl. eauto.
Qed.

Lemma trees_in_scope_are_readable_witness :
  exists σ t r,
    program (language.mk abc_language)
            [DeclParse "t" (sv_of_string "(b,c)");
             DeclParse "u" (sv_of_string "(bbb,ccc)");
             AssignMove "t" "u"]%string = Some σ /\
    vars σ !! "t"%string = Some t /\
    tree.get_root_node t (eng σ) = Ret r /\ node.is_null r = false.
Proof.
  eexists. eexists. 
  match goal with
  | |- exists r, ?P = Some ?s /\ _ =>
      assert (Hprog : P = Some s) by (vm_compute; reflexivity)
  end.
  match type of Hprog with
  | _ = Some ?s =>
      assert (Ht : vars s !! "t"%string
                   = Some (tree.ctor (Some 1%nat))) by (vm_compute; reflexivity);
      destruct (trees_in_scope_are_readable _ _ _ _ _ Hprog Ht) as [Hnull|[r [Hr Hn]]];
        [discriminate Hnull|];
      exists r; split; [exact Hprog|]; split; [exact Ht|]; split; assumption
  end.
Defined.

Lemma ts_tree_delete_keeps_parsers (h : handle) (E E' : engine) :
  ts_tree_delete h E = Ret E' -> eng_parsers E' = eng_parsers E.
Proof.
  unfold ts_tree_delete. destruct h as [a|].
  - destruct (eng_trees E !! a); [|discriminate]. intros H. by injection H as <-.
  - intros H. by injection H as <-.
Qed.

Lemma exec_keeps_parser (s : stmt) (σ σ' : state) :
  ownership σ -> exec s σ = Some σ' ->
  the_parser σ' = the_parser σ /\ eng_parsers (eng σ') = eng_parsers (eng σ).
Proof.
  unfold ownership. intros Hinv Hexec.
  destruct s as [x buffer|y x|y x|x]; simpl in Hexec.
  - destruct (vars σ !! x); [discriminate|].
    destruct (parser.parse_string (the_parser σ) buffer (eng σ))
      as [[t E']| |] eqn:Hparse; try discriminate.
    injection Hexec as <-. simpl.
    apply parse_string_allocates in Hparse as (a & T & _ & _ & ->). auto.
  - destruct (vars σ !! x); [|discriminate].
    destruct (vars σ !! y); [discriminate|].
    injection Hexec as <-. auto.
  - destruct (vars σ !! x) as [tx|] eqn:Hx; [|discriminate]. simpl in Hexec.
    destruct (decide (y = x)) as [->|Hyx].
    + rewrite lookup_insert_eq in Hexec. simpl in Hexec.
      injection Hexec as <-. auto.
    + rewrite lookup_insert_ne in Hexec by congruence.
      destruct (vars σ !! y) as [ty|] eqn:Hy; [|discriminate]. simpl in Hexec.
      pose proof (own_deleter _ _ Hinv y ty Hy) as Hdy.
      unfold unique_ptr.reset in Hexec. rewrite Hdy in Hexec.
      destruct (unique_ptr.get (tree.impl ty)) as [o|].
      * destruct (ts_tree_delete (Some o) (eng σ)) as [E'| |] eqn:Hdel;
          try discriminate.
        simpl in Hexec. injection Hexec as <-. simpl.
        split; [reflexivity|]. by apply (ts_tree_delete_keeps_parsers (Some o)).
      * injection Hexec as <-. auto.
  - destruct (vars σ !! x) as [tx|] eqn:Hx; [|discriminate]. simpl in Hexec.
    pose proof (own_deleter _ _ Hinv x tx Hx) as Hdx.
    unfold tree.dtor, unique_ptr.dtor in Hexec. rewrite Hdx in Hexec.
    destruct (unique_ptr.get (tree.impl tx)) as [o|].
    + destruct (ts_tree_delete (Some o) (eng σ)) as [E'| |] eqn:Hdel;
        try discriminate.
      injection Hexec as <-. simpl.
      split; [reflexivity|]. by apply (ts_tree_delete_keeps_parsers (Some o)).
    + injection Hexec as <-. auto.
Qed.

Lemma run_keeps_parser_ready (prog : list stmt) (σ σ' : state) :
  ownership σ -> parser_ready σ -> run prog σ = Some σ' -> parser_ready σ'.
Proof.
  revert σ. induction prog as [|s prog IH]; intros σ Hinv Hready Hrun;
    simpl in Hrun.
  - injection Hrun as <-. exact Hready.
  - destruct (exec s σ) as [σ1|] eqn:Hexec; [|discriminate]. simpl in Hrun.
    apply (IH σ1); [eapply exec_preserves_ownership; eauto | | exact Hrun].
    destruct (exec_keeps_parser s σ σ1 Hinv Hexec) as [Hp He].
    destruct Hready as (a & l & Ha & Hl). exists a, l.
    rewrite Hp, He. auto.
Qed.

Lemma initial_parser_ready (l : language.t) (σ : state) :
  initial l = Some σ -> parser_ready σ.
Proof.
  unfold initial, parser.ctor, ts_parser_new, ts_parser_set_language. simpl.
  rewrite lookup_insert_eq. simpl. intros H. injection H as <-.
  eexists _, _. simpl. split; [reflexivity|]. apply lookup_insert_eq.
Qed.

(** In every reachable state the statements over declared trees, and the
    parse of a non-empty buffer, are defined. *)
Lemma client_statements_defined (l : language.t) (prog : list stmt) (σ : state) :
  program l prog = Some σ ->
  (forall x, is_Some (vars σ !! x) -> is_Some (exec (EndScope x) σ)) /\
  (forall y x, is_Some (vars σ !! x) -> vars σ !! y = None ->
     is_Some (exec (DeclMove y x) σ)) /\
  (forall y x, is_Some (vars σ !! x) -> is_Some (vars σ !! y) ->
     is_Some (exec (AssignMove y x) σ)) /\
  (forall x buffer, vars σ !! x = None -> sv_size buffer <> 0 ->
     is_Some (exec (DeclParse x buffer) σ)).
Proof.
  intros Hprog.
  pose proof (run_reaches_ownership l prog σ Hprog) as Hinv.
  assert (Hready : parser_ready σ).
  { unfold program in Hprog.
    destruct (initial l) as [σ0|] eqn:Hinit; [|discriminate]. simpl in Hprog.
    eapply run_keeps_parser_ready; [| |exact Hprog].
    - by apply (initial_ownership l).
    - by apply (initial_parser_ready l). }
  assert (Hrelease : forall x tx o, vars σ !! x = Some tx ->
            unique_ptr.get (tree.impl tx) = Some o ->
            exists E', unique_ptr.get_deleter (tree.impl tx) (Some o) (eng σ) = Ret E').
  { intros x tx o Hx Ho.
    rewrite (own_deleter _ _ Hinv x tx Hx).
    assert (Hown : owns_in (vars σ) x o) by (exists tx; auto).
    destruct (owned_is_live _ _ x o Hinv Hown) as (c & Hc & _).
    unfold ts_tree_delete. rewrite Hc. eauto. }
  split; [|split; [|split]].
  - intros x [tx Hx]. simpl. rewrite Hx. simpl.
    unfold tree.dtor, unique_ptr.dtor.
    destruct (unique_ptr.get (tree.impl tx)) as [o|] eqn:Ho; [|eauto].
    destruct (Hrelease x tx o Hx Ho) as [E' ->]. eauto.
  - intros y x [tx Hx] Hy. simpl. rewrite Hx, Hy. eauto.
  - intros y x [tx Hx] [ty Hy]. simpl. rewrite Hx. simpl.
    destruct (decide (y = x)) as [->|Hyx].
    + rewrite lookup_insert_eq. simpl. eauto.
    + rewrite lookup_insert_ne by congruence. rewrite Hy. simpl.
      unfold unique_ptr.reset.
      destruct (unique_ptr.get (tree.impl ty)) as [o|] eqn:Ho; [|eauto].
      destruct (Hrelease y ty o Hy Ho) as [E' ->]. simpl. eauto.
  - intros x buffer Hx Hne. simpl. rewrite Hx.
    destruct Hready as (a & l' & Ha & Hl).
    destruct (parse_string_nonempty_root (the_parser σ) buffer (eng σ) a l'
                Hne Ha Hl) as (t & E' & _ & -> & _).
    eauto.
Qed.

Lemma owns_in_dec (V : gmap string tree.t) (x : string) (a : nat) :
  owns_in V x a \/ ~ owns_in V x a.
Proof.
  destruct (V !! x) as [t|] eqn:Hx.
  - destruct (unique_ptr.get (tree.impl t)) as [o|] eqn:Ho.
    + destruct (decide (a = o)) as [->|Hne].
      * left. exists t. auto.
      * right. intros Hown. apply (owns_in_holder V x t o a Hx Ho) in Hown.
        contradiction.
    + right. by apply (owns_in_null V x t a).
  - right. intros [t [Ht _]]. congruence.
Qed.

Lemma releasing_dec (s : stmt) (σ : state) (a : nat) :
  releasing s σ a \/ ~ releasing s σ a.
Proof.
  destruct s as [x buffer|y x|y x|x]; simpl; try (right; tauto).
  - destruct (decide (y = x)) as [->|Hne]; [right; tauto|].
    destruct (owns_in_dec (vars σ) y a) as [Hown|Hnot]; [left | right]; tauto.
  - apply owns_in_dec.
Qed.

Lemma exec_releases_only_live (s : stmt) (σ σ' : state) :
  ownership σ -> exec s σ = Some σ' -> releases_only_live σ σ'.
Proof.
  intros Hinv Hexec a n Hn.
  destruct (exec_release_step s σ σ' a Hinv Hexec) as [Hrel Hkeep].
  destruct (releasing_dec s σ a) as [Hyes|Hno].
  - right. destruct (Hrel Hyes) as [H0 H1]. split; [congruence | exact H1].
  - left. by apply Hkeep.
Qed.

Lemma ownership_released_at_most_once (σ : state) :
  ownership σ -> released_at_most_once σ.
Proof.
  intros Hinv a n Hn. unfold releases in Hn.
  destruct (eng_trees (eng σ) !! a) as [c|] eqn:Hc; [|discriminate].
  simpl in Hn. injection Hn as <-.
  destruct (own_cells _ _ Hinv a c Hc) as [[-> _]|[-> _]]; lia.
Qed.

(** X22: client code never gets into a state where destroying or moving a
    tree goes wrong.  In every reachable state the scope of every declared
    tree can end, every declared tree can be moved into a new or a declared
    tree, and every non-empty buffer can be parsed into a new tree; and each
    of these steps releases only live storage: a release count that changes
    goes from 0 to 1, and afterwards no storage has been released more than
    once. *)
Theorem client_code_is_safe (l : language.t) (prog : list stmt) (σ : state) :
  program l prog = Some σ ->
  (forall x, is_Some (vars σ !! x) ->
     exists σ', exec (EndScope x) σ = Some σ' /\
       releases_only_live σ σ' /\ released_at_most_once σ') /\
  (forall y x, is_Some (vars σ !! x) -> vars σ !! y = None ->
     exists σ', exec (DeclMove y x) σ = Some σ' /\
       releases_only_live σ σ' /\ released_at_most_once σ') /\
  (forall y x, is_Some (vars σ !! x) -> is_Some (vars σ !! y) ->
     exists σ', exec (AssignMove y x) σ = Some σ' /\
       releases_only_live σ σ' /\ released_at_most_once σ') /\
  (forall x buffer, vars σ !! x = None -> sv_size buffer <> 0 ->
     exists σ', exec (DeclParse x buffer) σ = Some σ' /\
       releases_only_live σ σ' /\ released_at_most_once σ').
Proof.
  intros Hprog.
  pose proof (run_reaches_ownership l prog σ Hprog) as Hinv.
  destruct (client_statements_defined l prog σ Hprog) as (Hend & Hmove & Hassign & Hparse).
  assert (Hstep : forall s, is_Some (exec s σ) ->
            exists σ', exec s σ = Some σ' /\
              releases_only_live σ σ' /\ released_at_most_once σ').
  { intros s [σ' Hexec]. exists σ'. split; [exact Hexec|]. split.
    - by apply (exec_releases_only_live s).
    - apply ownership_released_at_most_once.
      by apply (exec_preserves_ownership s σ). }
  split; [|split; [|split]].
  - intros x Hx. apply Hstep. by apply Hend.
  - intros y x Hx Hy. apply Hstep. by apply Hmove.
  - intros y x Hx Hy. apply Hstep. by apply Hassign.
  - intros x buffer Hx Hne. apply Hstep. by apply Hparse.
Qed.

Lemma client_code_is_safe_witness :
  exists σ σ',
    program (language.mk abc_language)
            [DeclParse "t" (sv_of_string "(b,c)"); DeclMove "u" "t"]%string = Some σ /\
    releases σ 0 = Some 0%nat /\
    exec (EndScope "u") σ = Some σ' /\
    releases_only_live σ σ' /\ released_at_most_once σ'.
Proof.
  eexists.
  match goal with
  | |- exists σ', ?P = Some ?s /\ _ =>
      assert (Hprog : P = Some s) by (vm_compute; reflexivity)
  end.
  match type of Hprog with
  | _ = Some ?s =>
      destruct (client_code_is_safe _ _ s Hprog) as (Hend & _);
      assert (Hu : is_Some (vars s !! "u"%string))
        by (vm_compute; eexists; reflexivity);
      destruct (Hend "u"%string Hu) as (σ' & Hexec & Hlive & Hmost)
  end.
  exists σ'. split; [exact Hprog|]. split; [vm_compute; reflexivity|].
  split; [exact Hexec|]. split; assumption.
Defined.
